(** * Jarvis triage cron (Centro de Mando): a shallow embedding

    The development follows the triage script of the repository (the one
    [npm run triage:jarvis] starts): the pure helpers ([normalizeText],
    [inferAgentBucket], [needsNico], [buildSubtasks]), the roster lookup
    ([getAgentRoster], [pickId]) and the coordinator ([main]) with its store
    calls, which are modelled by explicit state passing over the relations
    the job touches. The reading of the environment ([mustEnv]) is left out:
    the owner identifier is a parameter.

    JavaScript strings are sequences of UTF-16 code units and are modelled as
    [list Z]; string literals of the source are written as UTF-8 string
    literals and decoded by [js]. *)

From Stdlib Require Import ZArith String Ascii Decimal.
From stdpp Require Import base tactics option list sorting gmap.

Local Open Scope Z_scope.

(** ** JavaScript strings *)

Module JS.

Abbreviation jsstring := (list Z).

(** UTF-16 encoding of one code point. *)
Definition utf16_units (cp : Z) : jsstring :=
  if cp <? 65536 then [cp]
  else [55296 + Z.shiftr (cp - 65536) 10; 56320 + Z.land (cp - 65536) 1023].

(** Decoder for the UTF-8 bytes of a literal: [acc] is the code point being
    assembled and [need] the number of continuation bytes still expected. *)
Fixpoint utf8_decode (bs : list Z) (acc : Z) (need : nat) : jsstring :=
  match bs with
  | [] => []
  | b :: bs' =>
      match need with
      | O =>
          if b <? 128 then b :: utf8_decode bs' 0 0%nat
          else if b <? 224 then utf8_decode bs' (b - 192) 1%nat
          else if b <? 240 then utf8_decode bs' (b - 224) 2%nat
          else utf8_decode bs' (b - 240) 3%nat
      | S O => utf16_units (acc * 64 + (b - 128)) ++ utf8_decode bs' 0 0%nat
      | S n => utf8_decode bs' (acc * 64 + (b - 128)) n
      end
  end.

Definition js (s : string) : jsstring :=
  utf8_decode (map (fun a => Z.of_N (N_of_ascii a)) (list_ascii_of_string s)) 0 0%nat.

(** [String.prototype.trim] strips WhiteSpace and LineTerminator code units
    from both ends. *)
Definition isWhiteSpace (c : Z) : bool :=
  (* TAB, LF, VT, FF, CR *)
  ((9 <=? c) && (c <=? 13))
  || (c =? 32) || (c =? 160) || (c =? 5760)
  || ((8192 <=? c) && (c <=? 8202))
  || (c =? 8232) || (c =? 8233) || (c =? 8239) || (c =? 8287)
  || (c =? 12288) || (c =? 65279).

Fixpoint trimStart (s : jsstring) : jsstring :=
  match s with
  | [] => []
  | c :: s' => if isWhiteSpace c then trimStart s' else s
  end.

Definition trimEnd (s : jsstring) : jsstring := reverse (trimStart (reverse s)).

Definition trim (s : jsstring) : jsstring := trimEnd (trimStart s).

(** [s.startsWith(w)] and [s.includes(w)]. *)
Fixpoint startsWith (s w : jsstring) {struct w} : bool :=
  match w, s with
  | [], _ => true
  | _ :: _, [] => false
  | a :: w', b :: s' => (a =? b) && startsWith s' w'
  end.

Fixpoint includes (s w : jsstring) : bool :=
  startsWith s w ||
  match s with
  | [] => false
  | _ :: s' => includes s' w
  end.

(** [s.slice(0, n)] for a non-negative [n]; the same function serves
    [Array.prototype.slice]. *)
Definition slice0 {A} (n : nat) (l : list A) : list A := take n l.

(** [parts.join(sep)]. *)
Fixpoint join (sep : jsstring) (parts : list jsstring) : jsstring :=
  match parts with
  | [] => []
  | [p] => p
  | p :: ps => p ++ sep ++ join sep ps
  end.

(** Number-to-string conversion of a natural number (template literals). *)
Fixpoint digits (d : Decimal.uint) : jsstring :=
  match d with
  | Nil => []
  | D0 d => 48 :: digits d
  | D1 d => 49 :: digits d
  | D2 d => 50 :: digits d
  | D3 d => 51 :: digits d
  | D4 d => 52 :: digits d
  | D5 d => 53 :: digits d
  | D6 d => 54 :: digits d
  | D7 d => 55 :: digits d
  | D8 d => 56 :: digits d
  | D9 d => 57 :: digits d
  end.

Definition numberToString (n : nat) : jsstring := digits (Nat.to_uint n).

(** A string is truthy when it is not empty. *)
Definition truthy (s : jsstring) : bool :=
  match s with [] => false | _ => true end.

(** The host's Unicode case conversions are not part of the repository. The
    development is parametric in them: [toLowerCase] is
    [String.prototype.toLowerCase]; [toUpperUnit] is the upper-casing of one
    code unit as [Canonicalize] of the regular-expression semantics uses it
    (the unit itself when its upper case is not a single unit), consulted
    only outside ASCII. *)
Record Host := {
  toLowerCase : jsstring -> jsstring;
  toUpperUnit : Z -> Z;
}.

(** The conversions on strings of code units below 256 (Basic Latin and
    Latin-1 Supplement), for evaluating the definitions on such inputs. In
    that range only U+00B5 and U+00FF have an upper case outside the range
    and U+00DF has a two-letter one. *)
Definition lowerLatin1 (c : Z) : Z :=
  if (65 <=? c) && (c <=? 90) then c + 32
  else if (192 <=? c) && (c <=? 222) && negb (c =? 215) then c + 32
  else c.

Definition upperLatin1 (c : Z) : Z :=
  if (224 <=? c) && (c <=? 254) && negb (c =? 247) then c - 32
  else if c =? 181 then 924
  else if c =? 255 then 376
  else c.

Definition latin1 : Host :=
  {| toLowerCase := map lowerLatin1; toUpperUnit := upperLatin1 |}.

End JS.

Import JS.

(** ** Regular expressions

    The fragment of the regular-expression language the job uses: literal
    characters and [\W] under the [i] flag (without [u]), sequence,
    alternation and [*]. A pattern anchored by [^] and [$] without the [m]
    flag accepts exactly the strings of its language, so [test] is decided
    by derivatives. *)

Module RegExp.

Inductive atom : Type :=
  | Lit (c : Z)   (* a pattern character *)
  | NonWord.      (* the class escape \W *)

Inductive re : Type :=
  | Eps
  | Atom (a : atom)
  | Seq (r1 r2 : re)
  | Alt (r1 r2 : re)
  | Star (r : re).

(** The word characters [A-Za-z0-9_]. *)
Definition isWordChar (c : Z) : bool :=
  ((97 <=? c) && (c <=? 122)) || ((65 <=? c) && (c <=? 90))
  || ((48 <=? c) && (c <=? 57)) || (c =? 95).

(** [Canonicalize] for a pattern with the [i] flag and without [u]: the
    upper case of the code unit, except that a unit outside ASCII is never
    mapped into ASCII. *)
Definition Canonicalize (h : Host) (ch : Z) : Z :=
  if ch <? 128 then (if (97 <=? ch) && (ch <=? 122) then ch - 32 else ch)
  else let cu := toUpperUnit h ch in if cu <? 128 then ch else cu.

(** A literal matches the units with the same canonical form. Without the
    [u] flag the [i] flag adds nothing to [\W]: no unit outside the word
    characters canonicalizes to a word character. *)
Definition atomMatches (h : Host) (a : atom) (c : Z) : bool :=
  match a with
  | Lit l => Canonicalize h c =? Canonicalize h l
  | NonWord => negb (isWordChar c)
  end.

Fixpoint nullable (r : re) : bool :=
  match r with
  | Eps => true
  | Atom _ => false
  | Seq r1 r2 => nullable r1 && nullable r2
  | Alt r1 r2 => nullable r1 || nullable r2
  | Star _ => true
  end.

(** [None] is the empty language. *)
Fixpoint deriv (h : Host) (c : Z) (r : re) : option re :=
  match r with
  | Eps => None
  | Atom a => if atomMatches h a c then Some Eps else None
  | Seq r1 r2 =>
      let first := (fun d => Seq d r2) <$> deriv h c r1 in
      if nullable r1 then
        match first, deriv h c r2 with
        | Some a, Some b => Some (Alt a b)
        | Some a, None => Some a
        | None, o => o
        end
      else first
  | Alt r1 r2 =>
      match deriv h c r1, deriv h c r2 with
      | Some a, Some b => Some (Alt a b)
      | Some a, None => Some a
      | None, o => o
      end
  | Star r1 => (fun d => Seq d (Star r1)) <$> deriv h c r1
  end.

Fixpoint accepts (h : Host) (r : re) (s : jsstring) : bool :=
  match s with
  | [] => nullable r
  | c :: s' =>
      match deriv h c r with
      | Some d => accepts h d s'
      | None => false
      end
  end.

(** The language of a pattern. *)
Inductive lang (h : Host) : re -> jsstring -> Prop :=
  | lang_eps : lang h Eps []
  | lang_atom a c : atomMatches h a c = true -> lang h (Atom a) [c]
  | lang_seq r1 r2 s1 s2 :
      lang h r1 s1 -> lang h r2 s2 -> lang h (Seq r1 r2) (s1 ++ s2)
  | lang_alt_l r1 r2 s : lang h r1 s -> lang h (Alt r1 r2) s
  | lang_alt_r r1 r2 s : lang h r2 s -> lang h (Alt r1 r2) s
  | lang_star_nil r : lang h (Star r) []
  | lang_star_cons r c s1 s2 :
      lang h r (c :: s1) -> lang h (Star r) s2 -> lang h (Star r) (c :: s1 ++ s2).

(** The pattern of a literal word. *)
Definition word (w : jsstring) : re :=
  foldr (fun c r => Seq (Atom (Lit c)) r) Eps w.

End RegExp.

(** ** Data model

    The rows of the relations as the job reads and writes them. Columns the
    store fills in by itself (row identifiers of inserted rows, timestamps of
    inserted rows) are never read back by the job and are left out. A
    nullable text column is an [option]. *)

Inductive Status : Type :=
  | inbox | triage | in_progress | blocked | review | needs_nico | done | canceled.

#[global] Instance Status_eq_dec : EqDecision Status.
Proof. solve_decision. Defined.

Module Task.
Record t := {
  id : jsstring;
  title : option jsstring;
  description : option jsstring;
  status : Status;
  created_at : Z;
  owner_id : jsstring;
}.
End Task.

Module Agent.
Record t := {
  id : jsstring;
  name : option jsstring;
  role : option jsstring;
  is_active : bool;
  owner_id : jsstring;
}.
End Agent.

(** A step of a plan, as [buildSubtasks] returns it. *)
Module Step.
Record t := {
  title : jsstring;
  definition_of_done : jsstring;
  bucket : jsstring;
}.
End Step.

Module Subtask.
Record t := {
  owner_id : jsstring;
  task_id : jsstring;
  title : jsstring;
  status : Status;
  assignee_agent_id : option jsstring;
  definition_of_done : jsstring;
  sort_order : nat;
  metadata_triage_bucket : jsstring;
}.
End Subtask.

Inductive ActorType : Type := human | agent | system.

Module Comment.
Record t := {
  owner_id : jsstring;
  task_id : jsstring;
  author_type : ActorType;
  author_agent_id : option jsstring;
  body : jsstring;
}.
End Comment.

Inductive Action : Type := create_subtasks | add_comment | move_status.

#[global] Instance Action_eq_dec : EqDecision Action.
Proof. solve_decision. Defined.

Inductive EntityType : Type := entity_task.

(** The payloads the job logs: [{ created }], [{ kind: 'triage_summary' }]
    and [{ from, to }]. *)
Inductive ActivityData : Type :=
  | DataCreated (created : nat)
  | DataKind (kind : jsstring)
  | DataMove (from to : Status).

Module Activity.
Record t := {
  owner_id : jsstring;
  actor_type : ActorType;
  actor_agent_id : option jsstring;
  action : Action;
  entity_type : EntityType;
  entity_id : jsstring;
  data : ActivityData;
}.
End Activity.

(** ** Classifier and plan builder *)

Section Pure.
Context (h : Host).

(** [(s || '').toString().trim()] *)
Definition normalizeText (s : option jsstring) : jsstring :=
  trim (match s with
        | Some v => if truthy v then v else []
        | None => []
        end).

Definition inferAgentBucket (title description : option jsstring) : jsstring :=
  let t := toLowerCase h (normalizeText title ++ [10] ++ normalizeText description) in
  let has := fun words : list jsstring => existsb (fun w => includes t w) words in
  if has [js "skool"; js "comunidad"; js "curso"; js "miembros"; js "post"; js "contenido"]
  then js "Skool"
  else if has [js "deploy"; js "infra"; js "servidor"; js "gateway"; js "cron"; js "ssh";
               js "dns"; js "docker"; js "uptime"; js "monitor"]
  then js "Ops"
  else if has [js "bug"; js "error"; js "fix"; js "api"; js "next"; js "frontend";
               js "backend"; js "supabase"; js "sql"; js "typescript"; js "codigo";
               js "código"]
  then js "Dev"
  else if has [js "investigar"; js "research"; js "benchmark"; js "comparar";
               js "alternativa"; js "documentación"; js "docs"]
  then js "Research"
  else js "Jarvis".

(** [/^\W*(idea|ayuda|pendiente|hacer|tbd|todo)\W*$/i] *)
Definition fillerPattern : RegExp.re :=
  let W := RegExp.Atom RegExp.NonWord in
  RegExp.Seq (RegExp.Star W)
    (RegExp.Seq
       (RegExp.Alt (RegExp.word (js "idea"))
       (RegExp.Alt (RegExp.word (js "ayuda"))
       (RegExp.Alt (RegExp.word (js "pendiente"))
       (RegExp.Alt (RegExp.word (js "hacer"))
       (RegExp.Alt (RegExp.word (js "tbd"))
                   (RegExp.word (js "todo")))))))
       (RegExp.Star W)).

Definition needsNico (task : Task.t) : bool :=
  let title := normalizeText (Task.title task) in
  let desc := normalizeText (Task.description task) in
  let tooVague := (length title <? 8)%nat || RegExp.accepts h fillerPattern title in
  let noDesc := (length desc =? 0)%nat in
  tooVague && noDesc.

(** The steps [buildSubtasks] has pushed when it reaches its [return]. *)
Definition pushedSteps (task : Task.t) : list Step.t :=
  let bucket := inferAgentBucket (Task.title task) (Task.description task) in
  let subtasks : list Step.t := [] in
  let subtasks := subtasks ++ [
    {| Step.title := js "Aclarar alcance y criterios";
       Step.definition_of_done :=
         js "Queda escrito en la tarea: objetivo, entradas necesarias, restricciones, y criterio de éxito verificable (qué se considera “hecho”).";
       Step.bucket := js "Jarvis" |}] in
  let subtasks :=
    if bool_decide (bucket = js "Research") then subtasks ++ [
      {| Step.title := js "Investigación rápida (3 fuentes)";
         Step.definition_of_done :=
           js "Entrega un resumen de 10-15 líneas + 3 links relevantes + recomendación clara (qué hacer / qué no hacer) con pros y contras.";
         Step.bucket := js "Research" |}]
    else subtasks in
  let subtasks :=
    if bool_decide (bucket = js "Skool") then subtasks ++ [
      {| Step.title := js "Diseñar pieza / acción para Skool";
         Step.definition_of_done :=
           js "Queda un borrador listo para publicar (texto final) + checklist de publicación (dónde, cuándo, CTA).";
         Step.bucket := js "Skool" |}]
    else subtasks in
  let subtasks :=
    if bool_decide (bucket = js "Dev") then subtasks ++ [
      {| Step.title := js "Implementación técnica";
         Step.definition_of_done :=
           js "PR/commit listo o cambios aplicados: incluye qué se cambió, cómo probarlo y evidencia (captura/log) de que pasa.";
         Step.bucket := js "Dev" |}]
    else subtasks in
  let subtasks :=
    if bool_decide (bucket = js "Ops") then subtasks ++ [
      {| Step.title := js "Ejecución/operación";
         Step.definition_of_done :=
           js "Cambio aplicado en entorno correspondiente + verificación (comando/screenshot/log) + rollback plan documentado.";
         Step.bucket := js "Ops" |}]
    else subtasks in
  let subtasks := subtasks ++ [
    {| Step.title := js "Validación final";
       Step.definition_of_done :=
         js "Checklist de verificación completado y nota final en la tarea confirmando que el objetivo se cumplió.";
       Step.bucket := js "Jarvis" |}] in
  subtasks.

Definition buildSubtasks (task : Task.t) : list Step.t :=
  (* Cap at 7 *)
  slice0 7 (pushedSteps task).

End Pure.

(** ** The store and the process

    The store holds the relations; every call to it either fails with the
    error the environment has scheduled for it or is applied to the
    relations. [faults] is the schedule: one entry per call still to come,
    [None] for a call that succeeds; calls beyond the schedule succeed. A
    failed call leaves the relations as they were. No other actor writes
    during a run; what a change made by somebody else between the fetch and
    a write does to a turn of the loop is covered by stating the properties
    of a turn for an arbitrary store. *)

Record StoreError := { message : jsstring }.

Module Store.
Record t := {
  tasks : list Task.t;
  subtasks : list Subtask.t;
  comments : list Comment.t;
  activity_log : list Activity.t;
  agents : list Agent.t;
}.
End Store.

(** The writes the job issues. *)
Inductive Write : Type :=
  | InsertSubtasks (rows : list Subtask.t)
  | InsertComment (c : Comment.t)
  | InsertActivity (a : Activity.t)
  | UpdateStatus (owner id : jsstring) (expected new : Status).

Definition setStatus (r : Task.t) (st : Status) : Task.t :=
  {| Task.id := Task.id r; Task.title := Task.title r;
     Task.description := Task.description r; Task.status := st;
     Task.created_at := Task.created_at r; Task.owner_id := Task.owner_id r |}.

(** [update({ status }).eq('owner_id', owner).eq('id', id).eq('status', expected)]
    on one row. *)
Definition updateRow (owner id : jsstring) (expected new : Status) (r : Task.t) : Task.t :=
  if bool_decide (Task.owner_id r = owner) && bool_decide (Task.id r = id)
     && bool_decide (Task.status r = expected)
  then setStatus r new
  else r.

Definition applyWrite (s : Store.t) (x : Write) : Store.t :=
  match x with
  | InsertSubtasks rows =>
      {| Store.tasks := Store.tasks s; Store.subtasks := Store.subtasks s ++ rows;
         Store.comments := Store.comments s; Store.activity_log := Store.activity_log s;
         Store.agents := Store.agents s |}
  | InsertComment c =>
      {| Store.tasks := Store.tasks s; Store.subtasks := Store.subtasks s;
         Store.comments := Store.comments s ++ [c];
         Store.activity_log := Store.activity_log s; Store.agents := Store.agents s |}
  | InsertActivity a =>
      {| Store.tasks := Store.tasks s; Store.subtasks := Store.subtasks s;
         Store.comments := Store.comments s;
         Store.activity_log := Store.activity_log s ++ [a]; Store.agents := Store.agents s |}
  | UpdateStatus owner id expected new =>
      {| Store.tasks := updateRow owner id expected new <$> Store.tasks s;
         Store.subtasks := Store.subtasks s; Store.comments := Store.comments s;
         Store.activity_log := Store.activity_log s; Store.agents := Store.agents s |}
  end.

Definition applyWrites (s : Store.t) (xs : list Write) : Store.t := foldl applyWrite s xs.

(** The reads the job issues. *)
Definition selectActiveAgents (owner : jsstring) (s : Store.t) : list Agent.t :=
  filter (fun a => Agent.owner_id a = owner /\ Agent.is_active a = true) (Store.agents s).

Definition olderOrSame (a b : Task.t) : Prop := (Task.created_at a <= Task.created_at b)%Z.

#[global] Instance olderOrSame_dec : RelDecision olderOrSame.
Proof. intros a b. unfold olderOrSame. apply _. Defined.

(** [.eq('owner_id', owner).eq('status', st).order('created_at', { ascending: true }).limit(n)];
    among rows of equal creation time the store promises no order, and the
    model takes the one the sort leaves. *)
Definition selectTasks (owner : jsstring) (st : Status) (n : nat) (s : Store.t) : list Task.t :=
  take n (merge_sort olderOrSame
            (filter (fun r => Task.owner_id r = owner /\ Task.status r = st) (Store.tasks s))).

(** [.eq('owner_id', owner).eq('task_id', id).limit(n)] *)
Definition selectSubtasks (owner id : jsstring) (n : nat) (s : Store.t) : list Subtask.t :=
  take n (filter (fun r => Subtask.owner_id r = owner /\ Subtask.task_id r = id)
            (Store.subtasks s)).

Inductive ConsoleArg : Type :=
  | ArgString (s : jsstring)
  | ArgError (e : StoreError).

Record World := {
  store : Store.t;
  faults : list (option StoreError);
  stdout : list jsstring;
  stderr : list (list ConsoleArg);
  exitCode : Z;
}.

(** A computation ends normally or by a thrown error; the world it leaves is
    kept in both cases. *)
Inductive Completion (A : Type) : Type :=
  | Normal (a : A)
  | Throw (e : StoreError).
Arguments Normal {A} a.
Arguments Throw {A} e.

Definition M (A : Type) : Type := World -> Completion A * World.

Definition ret {A} (a : A) : M A := fun w => (Normal a, w).

Definition throw {A} (e : StoreError) : M A := fun w => (Throw e, w).

Definition bind {A B} (m : M A) (k : A -> M B) : M B := fun w =>
  match m w with
  | (Normal a, w') => k a w'
  | (Throw e, w') => (Throw e, w')
  end.

Notation "'let*' x ':=' m 'in' k" := (bind m (fun x => k))
  (at level 10, x pattern, m at level 100, k at level 200).

(** The answer of a store call: [{ data, error }]. *)
Module Response.
Record t (A : Type) := { data : option A; error : option StoreError }.
Arguments data {A} _.
Arguments error {A} _.
End Response.

Definition nextFault (fs : list (option StoreError)) : option StoreError :=
  match fs with
  | Some e :: _ => Some e
  | _ => None
  end.

Definition withStore (w : World) (s : Store.t) : World :=
  {| store := s; faults := tail (faults w); stdout := stdout w; stderr := stderr w;
     exitCode := exitCode w |}.

Definition request {A} (op : Store.t -> A * Store.t) : M (Response.t A) := fun w =>
  match nextFault (faults w) with
  | Some e =>
      (Normal {| Response.data := None; Response.error := Some e |}, withStore w (store w))
  | None =>
      let '(a, s') := op (store w) in
      (Normal {| Response.data := Some a; Response.error := None |}, withStore w s')
  end.

Definition read {A} (q : Store.t -> A) : M (Response.t A) :=
  request (fun s => (q s, s)).

Definition write (x : Write) : M (Response.t unit) :=
  request (fun s => (tt, applyWrite s x)).

(** [if (error) throw error;] *)
Definition throwIf (error : option StoreError) : M unit :=
  match error with
  | Some e => throw e
  | None => ret tt
  end.

Definition console_log (line : jsstring) : M unit := fun w =>
  (Normal tt, {| store := store w; faults := faults w; stdout := stdout w ++ [line];
                 stderr := stderr w; exitCode := exitCode w |}).

(** [for (const x of l) body], the loop state being [acc]. *)
Fixpoint forOf {A S} (body : A -> S -> M S) (l : list A) (acc : S) : M S :=
  match l with
  | [] => ret acc
  | x :: l' => let* acc' := body x acc in forOf body l' acc'
  end.

(** ** Roster and coordinator *)

Module Processed.
Record t := {
  id : jsstring;
  subtasks_created : nat;
  status : Status;
  skipped_existing : bool;
}.
End Processed.

(** [x || null] for a string [x]. *)
Definition orNull (x : jsstring) : option jsstring :=
  if truthy x then Some x else None.

(** The text of a status in a template literal. *)
Definition statusName (st : Status) : jsstring :=
  match st with
  | inbox => js "inbox"
  | triage => js "triage"
  | in_progress => js "in_progress"
  | blocked => js "blocked"
  | review => js "review"
  | needs_nico => js "needs_nico"
  | done => js "done"
  | canceled => js "canceled"
  end.

Section Coordinator.
Context (h : Host) (OWNER_ID : jsstring).

Definition getAgentRoster (ownerId : jsstring) : M (gmap jsstring Agent.t) :=
  let* r := read (selectActiveAgents ownerId) in
  let* _ := throwIf (Response.error r) in
  let map : gmap jsstring Agent.t := ∅ in
  ret (foldl (fun map a => <[toLowerCase h (default [] (Agent.name a ≫= orNull)) := a]> map)
         map (default [] (Response.data r))).

Definition insertActivity (actor_agent_id : option jsstring) (action : Action)
    (entity_id : jsstring) (data : ActivityData) : M unit :=
  let* r := write (InsertActivity
    {| Activity.owner_id := OWNER_ID; Activity.actor_type := agent;
       Activity.actor_agent_id := actor_agent_id; Activity.action := action;
       Activity.entity_type := entity_task; Activity.entity_id := entity_id;
       Activity.data := data |}) in
  throwIf (Response.error r).

Definition pickId (roster : gmap jsstring Agent.t) (jarvisId : option jsstring)
    (bucket : jsstring) : option jsstring :=
  let key := toLowerCase h (default [] (orNull bucket)) in
  let a := roster !! key in
  match a ≫= (fun a => orNull (Agent.id a)) with
  | Some id => Some id
  | None => jarvisId
  end.

Definition subtaskRows (roster : gmap jsstring Agent.t) (jarvisId : option jsstring)
    (task : Task.t) (plan : list Step.t) : list Subtask.t :=
  imap (fun idx p =>
    {| Subtask.owner_id := OWNER_ID;
       Subtask.task_id := Task.id task;
       Subtask.title := Step.title p;
       Subtask.status := in_progress;
       Subtask.assignee_agent_id := pickId roster jarvisId (Step.bucket p);
       Subtask.definition_of_done := Step.definition_of_done p;
       Subtask.sort_order := idx;
       Subtask.metadata_triage_bucket := Step.bucket p |}) plan.

Definition commentBody (task : Task.t) (needs : bool) : jsstring :=
  let resumen :=
    if truthy (normalizeText (Task.description task))
    then slice0 240 (normalizeText (Task.description task))
    else js "Sin descripción (se requiere aclarar)." in
  let pasos :=
    if needs
    then [js "Falta info crítica: describe objetivo + entregable esperado + contexto (links/ejemplos)."]
    else [js "Revisar subtasks y ejecutar en orden.";
          js "Actualizar resultados en cada subtask.";
          js "Cerrar con validación final."] in
  join [10]
    ([js "Resumen: " ++ resumen; []; js "Pasos:"]
     ++ ((fun p => js "- " ++ p) <$> pasos)
     ++ [[]; js "Links:"; js "- (vacío)"; []; js "Riesgos:";
         if needs then js "- Bloqueo por falta de contexto."
         else js "- Estimación puede cambiar al descubrir dependencias."]).

(** The body of the loop of [main]; [processed] is the array the loop fills. *)
Definition processTask (roster : gmap jsstring Agent.t) (jarvisId : option jsstring)
    (task : Task.t) (processed : list Processed.t) : M (list Processed.t) :=
  (* safety: only inbox *)
  if negb (bool_decide (Task.status task = inbox)) then ret processed else
  (* check existing subtasks *)
  let* r := read (selectSubtasks OWNER_ID (Task.id task) 1) in
  let* _ := throwIf (Response.error r) in
  let existingSubs := default [] (Response.data r) in
  let alreadyHas := (0 <? length existingSubs)%nat in
  let needs := needsNico h task in
  let newStatus := if needs then needs_nico else triage in
  (* create subtasks only if none exist AND not needs_nico *)
  let* createdCount :=
    if negb alreadyHas && negb needs then
      let plan := buildSubtasks h task in
      let rows := subtaskRows roster jarvisId task plan in
      let* ins := request (fun s => (rows, applyWrite s (InsertSubtasks rows))) in
      let* _ := throwIf (Response.error ins) in
      let createdCount :=
        match Response.data ins with
        | Some insData => if (length insData =? 0)%nat then length rows else length insData
        | None => length rows
        end in
      let* _ := insertActivity jarvisId create_subtasks (Task.id task)
                  (DataCreated createdCount) in
      ret createdCount
    else ret 0%nat in
  (* comment summary (always) *)
  let* c := write (InsertComment
    {| Comment.owner_id := OWNER_ID; Comment.task_id := Task.id task;
       Comment.author_type := agent; Comment.author_agent_id := jarvisId;
       Comment.body := commentBody task needs |}) in
  let* _ := throwIf (Response.error c) in
  let* _ := insertActivity jarvisId add_comment (Task.id task)
              (DataKind (js "triage_summary")) in
  (* move status *)
  let* u := write (UpdateStatus OWNER_ID (Task.id task) inbox newStatus) in
  let* _ := throwIf (Response.error u) in
  let* _ := insertActivity jarvisId move_status (Task.id task) (DataMove inbox newStatus) in
  ret (processed ++ [
    {| Processed.id := Task.id task; Processed.subtasks_created := createdCount;
       Processed.status := newStatus; Processed.skipped_existing := alreadyHas |}]).

Definition summaryLine (p : Processed.t) : jsstring :=
  let extra := if Processed.skipped_existing p then js " (subtasks ya existían)" else [] in
  js "- " ++ Processed.id p ++ js ": +" ++ numberToString (Processed.subtasks_created p)
  ++ js " subtasks, status=" ++ statusName (Processed.status p) ++ extra.

Definition main : M unit :=
  let* roster := getAgentRoster OWNER_ID in
  let jarvisAgent := roster !! js "jarvis" in
  let jarvisId := jarvisAgent ≫= (fun a => orNull (Agent.id a)) in
  let* r := read (selectTasks OWNER_ID inbox 20) in
  let* _ := throwIf (Response.error r) in
  let tasks := default [] (Response.data r) in
  let* processed := forOf (processTask roster jarvisId) tasks [] in
  (* Output summary *)
  if (length processed =? 0)%nat
  then console_log (js "Procesado: 0 tasks (no había tasks en inbox).")
  else
    let* _ := console_log (js "Procesado: " ++ numberToString (length processed) ++ js " tasks") in
    forOf (fun p _ => console_log (summaryLine p)) processed tt.

(** [main().catch(...)]: the whole process, from the world it starts in to
    the world it leaves. *)
Definition run (w : World) : World :=
  match main w with
  | (Normal _, w') => w'
  | (Throw e, w') =>
      {| store := store w'; faults := faults w'; stdout := stdout w';
         stderr := stderr w' ++ [[ArgString (js "ERROR triage:");
                                  if truthy (message e) then ArgString (message e)
                                  else ArgError e]];
         exitCode := 1 |}
  end.

End Coordinator.

(** ** The specification's wording

    Definitions that follow the words of the specification rather than the
    code; the properties below compare them with the code. *)

Module Spec.

(** The filler words of the denylist. *)
Definition fillerWords : list jsstring :=
  [js "idea"; js "ayuda"; js "pendiente"; js "hacer"; js "tbd"; js "todo"].

(** [c] is the lower-case ASCII letter [l] or its capital. *)
Definition sameLetter (c l : Z) : Prop := c = l \/ c = l - 32.

(** A title matches the denylist when it is a filler word, in any mix of
    upper and lower case, surrounded by any number of non-word characters. *)
Definition matchesFiller (title : jsstring) : Prop :=
  exists before w after f,
    title = before ++ w ++ after
    /\ Forall (fun c => RegExp.isWordChar c = false) before
    /\ Forall (fun c => RegExp.isWordChar c = false) after
    /\ f ∈ fillerWords
    /\ Forall2 sameLetter w f.

(** The vagueness verdict in the specification's words. *)
Definition needsClarification (title description : jsstring) : Prop :=
  ((length (trim title) < 8)%nat \/ matchesFiller (trim title)) /\ trim description = [].

(** The ordered rules of the classifier: keyword set and bucket. *)
Definition rules : list (list jsstring * jsstring) :=
  [ ([js "skool"; js "comunidad"; js "curso"; js "miembros"; js "post"; js "contenido"],
     js "Skool");
    ([js "deploy"; js "infra"; js "servidor"; js "gateway"; js "cron"; js "ssh"; js "dns";
      js "docker"; js "uptime"; js "monitor"],
     js "Ops");
    ([js "bug"; js "error"; js "fix"; js "api"; js "next"; js "frontend"; js "backend";
      js "supabase"; js "sql"; js "typescript"; js "codigo"; js "código"],
     js "Dev");
    ([js "investigar"; js "research"; js "benchmark"; js "comparar"; js "alternativa";
      js "documentación"; js "docs"],
     js "Research") ].

Definition defaultBucket : jsstring := js "Jarvis".

(** A rule matches a text when any keyword of its set occurs in the text. *)
Definition ruleMatches (text : jsstring) (rule : list jsstring * jsstring) : Prop :=
  Exists (fun w => includes text w = true) rule.1.

(** The first rule that matches wins; with none, the default bucket. *)
Definition firstMatch (rules : list (list jsstring * jsstring)) (text : jsstring) : jsstring :=
  match list_find (ruleMatches text) rules with
  | Some (_, rule) => rule.2
  | None => defaultBucket
  end.

(** The bucket, with the text the specification names: the lower-cased
    concatenation of title and description. *)
Definition bucketOfConcatenation (h : Host) (title description : jsstring) : jsstring :=
  firstMatch rules (toLowerCase h (title ++ description)).

(** The bucket, with the text the code builds: the trimmed title, a line
    feed and the trimmed description, lower-cased. *)
Definition bucketOfLines (h : Host) (title description : jsstring) : jsstring :=
  firstMatch rules (toLowerCase h (trim title ++ [10] ++ trim description)).

(** The roster entries filed under a key: those whose lower-cased name is
    the key. The mapping keeps the latest of them. *)
Definition entriesUnder (h : Host) (roster : list Agent.t) (key : jsstring) : list Agent.t :=
  filter (fun a => toLowerCase h (default [] (Agent.name a ≫= orNull)) = key) roster.

(** The identity found under a key, when there is an entry and it has one. *)
Definition identityUnder (h : Host) (roster : list Agent.t) (key : jsstring) :
    option jsstring :=
  last (entriesUnder h roster key) ≫= (fun a => orNull (Agent.id a)).

(** Assignee resolution: the entry under the lower-cased bucket name, else
    the default automated agent (the entry under "jarvis"), else nobody. *)
Definition resolveAssignee (h : Host) (roster : list Agent.t) (bucket : jsstring) :
    option jsstring :=
  match identityUnder h roster (toLowerCase h bucket) with
  | Some id => Some id
  | None =>
      match identityUnder h roster (js "jarvis") with
      | Some id => Some id
      | None => None
      end
  end.

(** The subtask row of the step at position [idx] of the plan of [task]. *)
Definition rowOfStep (owner : jsstring) (task : Task.t) (idx : nat) (step : Step.t)
    (row : Subtask.t) : Prop :=
  Subtask.owner_id row = owner
  /\ Subtask.task_id row = Task.id task
  /\ Subtask.title row = Step.title step
  /\ Subtask.status row = in_progress
  /\ Subtask.sort_order row = idx
  /\ Subtask.metadata_triage_bucket row = Step.bucket step
  /\ Subtask.definition_of_done row = Step.definition_of_done step
  /\ Subtask.definition_of_done row <> [].

(** The rows of a plan: one per step, position by position. *)
Definition rowsOfPlan (owner : jsstring) (task : Task.t) (plan : list Step.t)
    (rows : list Subtask.t) : Prop :=
  Forall2 (fun '(idx, step) row => rowOfStep owner task idx step row)
    (zip (seq 0 (length plan)) plan) rows.

(** The conditional write on one row: the row is given the new status when
    its owner and identity match and its stored status is still the expected
    one; any other row is left as it is. *)
Definition conditionallyUpdated (owner id : jsstring) (expected new : Status)
    (r r' : Task.t) : Prop :=
  (Task.owner_id r = owner /\ Task.id r = id /\ Task.status r = expected
   /\ r' = setStatus r new)
  \/ (~ (Task.owner_id r = owner /\ Task.id r = id /\ Task.status r = expected)
      /\ r' = r).

(** The target status of an item. *)
Definition decidedStatus (h : Host) (task : Task.t) : Status :=
  if needsNico h task then needs_nico else triage.

(** What one pass may do to a row: nothing, or the single step from [inbox]
    to the status decided for an item of the batch with the row's
    identity. *)
Definition oneShot (h : Host) (batch : list Task.t) (r r' : Task.t) : Prop :=
  r' = r
  \/ (Task.status r = inbox
      /\ exists t, t ∈ batch /\ Task.id t = Task.id r
                   /\ r' = setStatus r (decidedStatus h t)).

End Spec.

(** ** The calls of a run

    A run is a straight line of store calls that stops at the first call
    that fails. The calls a complete run issues are a function of the store
    it starts from; the properties of [main] are proved through them. *)

Inductive Call : Type :=
  | Read              (* a select: the relations are left as they are *)
  | Do (x : Write).

Definition applyCall (s : Store.t) (c : Call) : Store.t :=
  match c with
  | Read => s
  | Do x => applyWrite s x
  end.

Definition applyCalls (s : Store.t) (cs : list Call) : Store.t := foldl applyCall s cs.

(** Issue the calls in order against the schedule of faults; the answer is
    the error of the first call that fails, if any. *)
Fixpoint exec (cs : list Call) (w : World) : option StoreError * World :=
  match cs with
  | [] => (None, w)
  | c :: cs' =>
      match nextFault (faults w) with
      | Some e => (Some e, withStore w (store w))
      | None => exec cs' (withStore w (applyCall (store w) c))
      end
  end.

(** What a sequence of calls inserts. *)
Definition insertedSubtasks (cs : list Call) : list Subtask.t :=
  cs ≫= (fun c => match c with Do (InsertSubtasks rows) => rows | _ => [] end).

Definition insertedComments (cs : list Call) : list Comment.t :=
  cs ≫= (fun c => match c with Do (InsertComment x) => [x] | _ => [] end).

Definition insertedActivity (cs : list Call) : list Activity.t :=
  cs ≫= (fun c => match c with Do (InsertActivity x) => [x] | _ => [] end).

(** The batches of subtask rows a sequence of calls inserts. *)
Definition subtaskBatches (cs : list Call) : list (list Subtask.t) :=
  omap (fun c => match c with Do (InsertSubtasks rows) => Some rows | _ => None end) cs.

(** The subtasks of an item: what the existence check looks at. *)
Definition subtasksFor (owner id : jsstring) (s : Store.t) : list Subtask.t :=
  filter (fun r => Subtask.owner_id r = owner /\ Subtask.task_id r = id) (Store.subtasks s).

(** The rows a later store has beyond those of an earlier one. *)
Definition addedSubtasks (before after : Store.t) : list Subtask.t :=
  drop (length (Store.subtasks before)) (Store.subtasks after).

Definition addedComments (before after : Store.t) : list Comment.t :=
  drop (length (Store.comments before)) (Store.comments after).

Definition addedActivity (before after : Store.t) : list Activity.t :=
  drop (length (Store.activity_log before)) (Store.activity_log after).

(** The items for which a log has an entry of a given action, in order. *)
Definition loggedFor (action : Action) (entries : list Activity.t) : list jsstring :=
  Activity.entity_id <$> filter (fun a => Activity.action a = action) entries.

(** The world after some lines have been printed, and after the [catch]
    handler has reported an error. *)
Definition printed (w : World) (lines : list jsstring) : World :=
  {| store := store w; faults := faults w; stdout := stdout w ++ lines;
     stderr := stderr w; exitCode := exitCode w |}.

Definition failed (w : World) (line : list ConsoleArg) : World :=
  {| store := store w; faults := faults w; stdout := stdout w;
     stderr := stderr w ++ [line]; exitCode := 1 |}.

Section Calls.
Context (h : Host) (OWNER_ID : jsstring).

Definition alreadyHas (s : Store.t) (task : Task.t) : bool :=
  (0 <? length (selectSubtasks OWNER_ID (Task.id task) 1 s))%nat.

Definition targetStatus (task : Task.t) : Status :=
  if needsNico h task then needs_nico else triage.

Definition activityEntry (jarvisId : option jsstring) (action : Action)
    (entity_id : jsstring) (data : ActivityData) : Activity.t :=
  {| Activity.owner_id := OWNER_ID; Activity.actor_type := agent;
     Activity.actor_agent_id := jarvisId; Activity.action := action;
     Activity.entity_type := entity_task; Activity.entity_id := entity_id;
     Activity.data := data |}.

Definition summaryComment (jarvisId : option jsstring) (task : Task.t) : Comment.t :=
  {| Comment.owner_id := OWNER_ID; Comment.task_id := Task.id task;
     Comment.author_type := agent; Comment.author_agent_id := jarvisId;
     Comment.body := commentBody task (needsNico h task) |}.

(** The rows of the batch insert for an item that gets decomposed. *)
Definition planRows (roster : gmap jsstring Agent.t) (jarvisId : option jsstring)
    (task : Task.t) : list Subtask.t :=
  subtaskRows h OWNER_ID roster jarvisId task (buildSubtasks h task).

Definition decomposes (s : Store.t) (task : Task.t) : bool :=
  negb (alreadyHas s task) && negb (needsNico h task).

(** The calls of one turn of the loop for [task], started in store [s]. *)
Definition itemCalls (roster : gmap jsstring Agent.t) (jarvisId : option jsstring)
    (s : Store.t) (task : Task.t) : list Call :=
  if negb (bool_decide (Task.status task = inbox)) then []
  else
    Read
    :: (if decomposes s task
        then [Do (InsertSubtasks (planRows roster jarvisId task));
              Do (InsertActivity (activityEntry jarvisId create_subtasks (Task.id task)
                    (DataCreated (length (planRows roster jarvisId task)))))]
        else [])
    ++ [Do (InsertComment (summaryComment jarvisId task));
        Do (InsertActivity (activityEntry jarvisId add_comment (Task.id task)
              (DataKind (js "triage_summary"))));
        Do (UpdateStatus OWNER_ID (Task.id task) inbox (targetStatus task));
        Do (InsertActivity (activityEntry jarvisId move_status (Task.id task)
              (DataMove inbox (targetStatus task))))].

(** What the turn pushes on [processed] when it completes. *)
Definition itemSummary (roster : gmap jsstring Agent.t) (jarvisId : option jsstring)
    (s : Store.t) (task : Task.t) : list Processed.t :=
  if negb (bool_decide (Task.status task = inbox)) then []
  else [{| Processed.id := Task.id task;
           Processed.subtasks_created :=
             if decomposes s task then length (planRows roster jarvisId task) else 0%nat;
           Processed.status := targetStatus task;
           Processed.skipped_existing := alreadyHas s task |}].

Fixpoint batchCalls (roster : gmap jsstring Agent.t) (jarvisId : option jsstring)
    (s : Store.t) (tasks : list Task.t) : list Call :=
  match tasks with
  | [] => []
  | task :: tasks' =>
      itemCalls roster jarvisId s task
      ++ batchCalls roster jarvisId (applyCalls s (itemCalls roster jarvisId s task)) tasks'
  end.

Fixpoint batchSummary (roster : gmap jsstring Agent.t) (jarvisId : option jsstring)
    (s : Store.t) (tasks : list Task.t) : list Processed.t :=
  match tasks with
  | [] => []
  | task :: tasks' =>
      itemSummary roster jarvisId s task
      ++ batchSummary roster jarvisId (applyCalls s (itemCalls roster jarvisId s task)) tasks'
  end.

(** The roster map and the default agent identity of a run started in [s]. *)
Definition rosterOf (s : Store.t) : gmap jsstring Agent.t :=
  foldl (fun map a => <[toLowerCase h (default [] (Agent.name a ≫= orNull)) := a]> map)
    ∅ (selectActiveAgents OWNER_ID s).

Definition jarvisIdOf (s : Store.t) : option jsstring :=
  rosterOf s !! js "jarvis" ≫= (fun a => orNull (Agent.id a)).

(** The rows the backlog query selects from, and the batch a run started in
    [s] fetches. *)
Definition candidates (s : Store.t) : list Task.t :=
  filter (fun r => Task.owner_id r = OWNER_ID /\ Task.status r = inbox) (Store.tasks s).

Definition batchOf (s : Store.t) : list Task.t := selectTasks OWNER_ID inbox 20 s.

(** The calls of a complete run started in store [s]: the roster query, the
    backlog query, then the turns of the loop. *)
Definition runCalls (s : Store.t) : list Call :=
  Read :: Read :: batchCalls (rosterOf s) (jarvisIdOf s) s (batchOf s).

Definition runSummary (s : Store.t) : list Processed.t :=
  batchSummary (rosterOf s) (jarvisIdOf s) s (batchOf s).

(** The lines a complete run prints. *)
Definition report (processed : list Processed.t) : list jsstring :=
  if (length processed =? 0)%nat
  then [js "Procesado: 0 tasks (no había tasks en inbox)."]
  else (js "Procesado: " ++ numberToString (length processed) ++ js " tasks")
       :: (summaryLine <$> processed).

(** The line of the [catch] handler. *)
Definition errorLine (e : StoreError) : list ConsoleArg :=
  [ArgString (js "ERROR triage:");
   if truthy (message e) then ArgString (message e) else ArgError e].

End Calls.

(** ** Auxiliary predicates on calls and rows *)

(** The status updates of a pass: from [inbox] to the status decided for an
    item of the batch. *)
Definition movesItemOf (h : Host) (OWNER_ID : jsstring) (batch : list Task.t) (c : Call) :
    Prop :=
  match c with
  | Do (UpdateStatus owner id expected new) =>
      owner = OWNER_ID /\ expected = inbox
      /\ exists t, t ∈ batch /\ Task.id t = id /\ new = Spec.decidedStatus h t
  | _ => True
  end.

(** Rows of the owner still in [inbox] and carrying one of the given
    identities. *)
Definition pending (OWNER_ID : jsstring) (ids : jsstring -> Prop) (r : Task.t) : Prop :=
  Task.owner_id r = OWNER_ID /\ Task.status r = inbox /\ ids (Task.id r).

(** ** A sample board

    A small store on which the definitions are evaluated: two agents, an
    item with enough information ("Fix bug in API"), an older vague item
    ("ayuda"), and an item in review. *)

(** A row of the board from literals. *)
Definition mkTask (id title : string) (description : option jsstring) (st : Status)
    (created : Z) (owner : string) : Task.t :=
  {| Task.id := js id; Task.title := Some (js title);
     Task.description := description; Task.status := st;
     Task.created_at := created; Task.owner_id := js owner |}.

Module Sample.

Definition owner : jsstring := js "nico".

Definition jarvis : Agent.t :=
  {| Agent.id := js "agent-jarvis"; Agent.name := Some (js "Jarvis");
     Agent.role := Some (js "triage"); Agent.is_active := true; Agent.owner_id := owner |}.

Definition dev : Agent.t :=
  {| Agent.id := js "agent-dev"; Agent.name := Some (js "DEV");
     Agent.role := None; Agent.is_active := true; Agent.owner_id := owner |}.

Definition retired : Agent.t :=
  {| Agent.id := js "agent-ops"; Agent.name := Some (js "Ops");
     Agent.role := None; Agent.is_active := false; Agent.owner_id := owner |}.

Definition fixBug : Task.t := mkTask "t1" "Fix bug in API" (Some []) inbox 5 "nico".

Definition ayuda : Task.t := mkTask "t2" "ayuda" None inbox 3 "nico".

Definition inReview : Task.t :=
  mkTask "t3" "Deploy del gateway" (Some (js "ya casi")) review 1 "nico".

Definition board : Store.t :=
  {| Store.tasks := [fixBug; ayuda; inReview]; Store.subtasks := [];
     Store.comments := []; Store.activity_log := [];
     Store.agents := [jarvis; dev; retired] |}.

(** A board with nothing in the inbox. *)
Definition quietBoard : Store.t :=
  {| Store.tasks := [inReview]; Store.subtasks := []; Store.comments := [];
     Store.activity_log := []; Store.agents := [jarvis; dev; retired] |}.

(** A board with the single item of scenario A. *)
Definition boardA : Store.t :=
  {| Store.tasks := [fixBug]; Store.subtasks := []; Store.comments := [];
     Store.activity_log := []; Store.agents := [jarvis; dev; retired] |}.

(** A fresh process on a store, with a schedule of faults. *)
Definition start (s : Store.t) (fs : list (option StoreError)) : World :=
  {| store := s; faults := fs; stdout := []; stderr := []; exitCode := 0 |}.

Definition timeout : StoreError := {| message := js "upstream request timeout" |}.

(** Scenario A cut short: the first run inserts the subtasks of the item and
    logs them, then the insert of the comment fails; the item is still in
    the inbox when the next run starts. *)
Definition interrupted : World :=
  start boardA [None; None; None; None; None; Some timeout].

Definition afterInterrupted : World := run latin1 owner interrupted.

(** Scenario A run to its end, and a new process started on the store it
    leaves. *)
Definition afterFirstRun : World := run latin1 owner (start boardA []).

Definition afterSecondRun : World :=
  run latin1 owner (start (store afterFirstRun) []).

End Sample.

(** * Properties *)

(** ** Sanity checks of the embedding on concrete inputs *)

Example js_ascii : js "Jarvis" = [74; 97; 114; 118; 105; 115].
Proof. reflexivity. Qed.

Example js_two_bytes : js "código" = [99; 243; 100; 105; 103; 111].
Proof. reflexivity. Qed.

Example js_three_bytes : js "“hecho”" = [8220; 104; 101; 99; 104; 111; 8221].
Proof. reflexivity. Qed.

Example trim_example : trim (js "  idea 	") = js "idea".
Proof. reflexivity. Qed.

Example numberToString_example : numberToString 20 = js "20".
Proof. reflexivity. Qed.

Example scenarioA_bucket :
  inferAgentBucket latin1 (Some (js "Fix bug in API")) (Some []) = js "Dev".
Proof. vm_compute. reflexivity. Qed.

Example scenarioA_not_vague :
  needsNico latin1 (mkTask "t1" "Fix bug in API" (Some []) inbox 0 "nico") = false.
Proof. vm_compute. reflexivity. Qed.

Example scenarioA_steps :
  Step.title <$> buildSubtasks latin1 (mkTask "t1" "Fix bug in API" (Some []) inbox 0 "nico")
  = [js "Aclarar alcance y criterios"; js "Implementación técnica"; js "Validación final"].
Proof. vm_compute. reflexivity. Qed.

Example scenarioB_vague :
  needsNico latin1 (mkTask "t2" "ayuda" None inbox 0 "nico") = true.
Proof. vm_compute. reflexivity. Qed.

Example filler_with_punctuation :
  RegExp.accepts latin1 fillerPattern (js "¡¡ PENDIENTE !!") = true
  /\ RegExp.accepts latin1 fillerPattern (js "pendientes") = false
  /\ RegExp.accepts latin1 fillerPattern (js "idea_") = false.
Proof. vm_compute. auto. Qed.

Example scenarioB_comment :
  includes (commentBody Sample.ayuda (needsNico latin1 Sample.ayuda))
    (js "Falta info crítica") = true
  /\ includes (commentBody Sample.ayuda (needsNico latin1 Sample.ayuda))
       (js "Sin descripción (se requiere aclarar).") = true.
Proof. vm_compute. done. Qed.

Example scenarioB_run :
  let w := run latin1 Sample.owner (Sample.start Sample.board []) in
  subtasksFor Sample.owner (js "t2") (store w) = []
  /\ length (subtasksFor Sample.owner (js "t1") (store w)) = 3%nat
  /\ stdout w = [js "Procesado: 2 tasks";
                 js "- t2: +0 subtasks, status=needs_nico";
                 js "- t1: +3 subtasks, status=triage"]
  /\ exitCode w = 0.
Proof. vm_compute. done. Qed.

(** ** Strings *)

Section StringFacts.

Lemma startsWith_spec (s w : jsstring) :
  startsWith s w = true <-> exists rest, s = w ++ rest.
Proof.
  revert s. induction w as [|a w IH]; intros s; simpl.
  - split; [intros _; by exists s | done].
  - destruct s as [|b s]; simpl.
    + split; [done | intros [rest Hr]; discriminate].
    + rewrite andb_true_iff, Z.eqb_eq, IH. split.
      * intros [-> [rest ->]]. by exists rest.
      * intros [rest Hr]. injection Hr as -> ->. eauto.
Qed.

Lemma includes_spec (s w : jsstring) :
  includes s w = true <-> exists before after, s = before ++ w ++ after.
Proof.
  induction s as [|c s IH]; simpl.
  - rewrite orb_false_r, startsWith_spec. split.
    + intros [rest Hr]. by exists [], rest.
    + intros (before & after & Hs). symmetry in Hs.
      apply app_eq_nil in Hs as [-> Hs]. apply app_eq_nil in Hs as [-> ->]. by exists [].
  - rewrite orb_true_iff, startsWith_spec, IH. split.
    + intros [[rest Hr] | (before & after & ->)].
      * by exists [], rest.
      * by exists (c :: before), after.
    + intros ([|b before] & after & Hs); simpl in Hs.
      * left. eauto.
      * right. injection Hs as -> ->. eauto.
Qed.

Lemma trimStart_spec (s : jsstring) :
  exists ws, s = ws ++ trimStart s
    /\ Forall (fun c => isWhiteSpace c = true) ws
    /\ (forall c rest, trimStart s = c :: rest -> isWhiteSpace c = false).
Proof.
  induction s as [|c s (ws & Hs & Hws & Hhd)]; simpl.
  - exists []. split_and!; [done | constructor | done].
  - destruct (isWhiteSpace c) eqn:Hc.
    + exists (c :: ws). split_and!; [simpl; congruence | by constructor | exact Hhd].
    + exists []. split_and!; [done | constructor |]. intros c' rest [= <- _]. done.
Qed.

Lemma trimStart_nil (s : jsstring) :
  trimStart s = [] <-> Forall (fun c => isWhiteSpace c = true) s.
Proof.
  induction s as [|c s IH]; simpl.
  - split; [constructor | done].
  - destruct (isWhiteSpace c) eqn:Hc.
    + rewrite IH. split; [by constructor | by inversion 1].
    + split; [done | inversion 1; congruence].
Qed.

(** Trimming removes white space at both ends and nothing else. *)
Lemma trim_spec (s : jsstring) :
  exists l r, s = l ++ trim s ++ r
    /\ Forall (fun c => isWhiteSpace c = true) l
    /\ Forall (fun c => isWhiteSpace c = true) r
    /\ (forall c rest, trim s = c :: rest -> isWhiteSpace c = false)
    /\ (forall c rest, trim s = rest ++ [c] -> isWhiteSpace c = false).
Proof.
  destruct (trimStart_spec s) as (l & Hl & Hlws & Hhd).
  destruct (trimStart_spec (reverse (trimStart s))) as (r & Hr & Hrws & Hlast).
  unfold trim, trimEnd.
  set (m := trimStart (reverse (trimStart s))) in *.
  assert (Hmid : trimStart s = reverse m ++ reverse r).
  { rewrite <- reverse_app, <- Hr. by rewrite reverse_involutive. }
  exists l, (reverse r). split_and!.
  - by rewrite <- Hmid.
  - done.
  - by apply Forall_reverse.
  - intros c rest Hc. destruct (reverse m) as [|c' m'] eqn:Hm; [done|].
    injection Hc as -> ->. apply (Hhd c (rest ++ reverse r)). by rewrite Hmid.
  - intros c rest Hc. apply (Hlast c (reverse rest)).
    rewrite <- (reverse_involutive m), Hc, reverse_app. done.
Qed.

Lemma trim_nil (s : jsstring) :
  trim s = [] <-> Forall (fun c => isWhiteSpace c = true) s.
Proof.
  unfold trim, trimEnd. split.
  - intros H. apply (f_equal reverse) in H. rewrite reverse_involutive in H.
    change (reverse []) with (@nil Z) in H.
    apply trimStart_nil, Forall_reverse in H. rewrite reverse_involutive in H.
    destruct (trimStart_spec s) as (ws & Hs & Hws & _).
    rewrite Hs. by apply Forall_app.
  - intros H. apply trimStart_nil in H. rewrite H. done.
Qed.

End StringFacts.

(** ** Regular expressions: the matcher decides the language *)

Section RegExpFacts.
Context (h : Host).
Import RegExp.

Lemma lang_nil_nullable r s : lang h r s -> s = [] -> nullable r = true.
Proof.
  induction 1 as [|a c Hc|r1 r2 s1 s2 _ IH1 _ IH2|r1 r2 s _ IH|r1 r2 s _ IH| |];
    intros Hs; simpl; try done.
  - apply app_eq_nil in Hs as [-> ->]. by rewrite IH1, IH2.
  - by rewrite IH.
  - rewrite IH by done. apply orb_true_r.
Qed.

Lemma nullable_lang r : nullable r = true -> lang h r [].
Proof.
  induction r as [|a|r1 IH1 r2 IH2|r1 IH1 r2 IH2|r IH]; simpl; intros Hn.
  - constructor.
  - done.
  - apply andb_true_iff in Hn as [H1 H2].
    change (@nil Z) with (@nil Z ++ []). constructor; auto.
  - apply orb_true_iff in Hn as [H1|H2]; [apply lang_alt_l | apply lang_alt_r]; auto.
  - constructor.
Qed.

Lemma deriv_sound c r : forall d s, deriv h c r = Some d -> lang h d s -> lang h r (c :: s).
Proof.
  induction r as [|a|r1 IH1 r2 IH2|r1 IH1 r2 IH2|r IH]; simpl; intros d s Hd Hl.
  - done.
  - destruct (atomMatches h a c) eqn:Ha; [|done]. injection Hd as <-.
    inversion Hl; subst. by constructor.
  - assert (Hleft : forall d1 s', deriv h c r1 = Some d1 -> lang h (Seq d1 r2) s' ->
                      lang h (Seq r1 r2) (c :: s')).
    { intros d1 s' H1 Hs. inversion Hs as [| |? ? s1 s2 Ha Hb| | | |]; subst.
      change (c :: s1 ++ s2) with ((c :: s1) ++ s2). constructor; eauto. }
    assert (Hright : forall d2, nullable r1 = true -> deriv h c r2 = Some d2 ->
                       lang h d2 s -> lang h (Seq r1 r2) (c :: s)).
    { intros d2 Hn H2 Hs. change (c :: s) with ([] ++ c :: s).
      constructor; [by apply nullable_lang | eauto]. }
    destruct (nullable r1) eqn:Hn, (deriv h c r1) as [d1|] eqn:H1,
      (deriv h c r2) as [d2|] eqn:H2; simpl in Hd; simplify_eq; eauto.
    inversion Hl; subst; eauto.
  - destruct (deriv h c r1) as [d1|] eqn:H1, (deriv h c r2) as [d2|] eqn:H2;
      simplify_eq.
    + inversion Hl; subst; [apply lang_alt_l | apply lang_alt_r]; eauto.
    + apply lang_alt_l; eauto.
    + apply lang_alt_r; eauto.
  - destruct (deriv h c r) as [d1|] eqn:H1; simpl in Hd; simplify_eq.
    inversion Hl as [| |? ? s1 s2 Ha Hb| | | |]; subst.
    constructor; eauto.
Qed.

Lemma deriv_complete r s0 : lang h r s0 ->
  forall c s, s0 = c :: s -> exists d, deriv h c r = Some d /\ lang h d s.
Proof.
  induction 1 as [|a c0 Hc|r1 r2 s1 s2 H1 IH1 H2 IH2|r1 r2 s0 _ IH|r1 r2 s0 _ IH|
                  |r c0 s1 s2 H1 IH1 H2 IH2];
    intros c s Hs; simpl.
  - done.
  - injection Hs as -> <-. rewrite Hc. eexists; split; [done | constructor].
  - destruct s1 as [|c1 s1]; simpl in Hs.
    + subst s2. destruct (IH2 c s eq_refl) as (d2 & Hd2 & Hl2).
      rewrite (lang_nil_nullable _ _ H1 eq_refl), Hd2.
      destruct (deriv h c r1) as [d1|]; simpl; eexists; split; try done.
      by apply lang_alt_r.
    + injection Hs as -> <-. destruct (IH1 c s1 eq_refl) as (d1 & Hd1 & Hl1).
      rewrite Hd1. simpl.
      assert (Hseq : lang h (Seq d1 r2) (s1 ++ s2)) by by constructor.
      destruct (nullable r1); [|eauto].
      destruct (deriv h c r2); eexists; split; try done. by apply lang_alt_l.
  - destruct (IH c s Hs) as (d1 & Hd1 & Hl1). rewrite Hd1.
    destruct (deriv h c r2); eexists; split; try done. by apply lang_alt_l.
  - destruct (IH c s Hs) as (d2 & Hd2 & Hl2). rewrite Hd2.
    destruct (deriv h c r1); eexists; split; try done. by apply lang_alt_r.
  - done.
  - injection Hs as -> <-. destruct (IH1 c s1 eq_refl) as (d1 & Hd1 & Hl1).
    rewrite Hd1. simpl. eexists; split; [done | by constructor].
Qed.

(** [accepts] decides membership in the language of the pattern. *)
Lemma accepts_lang r s : accepts h r s = true <-> lang h r s.
Proof.
  revert r. induction s as [|c s IH]; intros r; simpl.
  - split; [apply nullable_lang | intros Hl; by eapply lang_nil_nullable].
  - split.
    + destruct (deriv h c r) as [d|] eqn:Hd; [|done].
      intros Ha. eapply deriv_sound; [done | by apply IH].
    + intros Hl. destruct (deriv_complete _ _ Hl c s eq_refl) as (d & -> & Hd).
      by apply IH.
Qed.

(** The languages of the pieces of the filler pattern. *)
Lemma lang_star_NonWord s :
  lang h (Star (Atom NonWord)) s <-> Forall (fun c => isWordChar c = false) s.
Proof.
  split.
  - remember (Star (Atom NonWord)) as r eqn:Hr.
    induction 1 as [| | | | | |r0 c s1 s2 H1 _ H2 IH2]; try done.
    injection Hr as ->. inversion H1 as [|a c' Hc| | | | |]; subst. simpl in *.
    constructor; [by apply negb_true_iff | by apply IH2].
  - induction 1 as [|c s Hc _ IH].
    + constructor.
    + change (c :: s) with (c :: [] ++ s). constructor; [|done].
      constructor. simpl. by rewrite Hc.
Qed.

Lemma lang_word f w :
  lang h (word f) w <-> Forall2 (fun c l => Canonicalize h c = Canonicalize h l) w f.
Proof.
  revert w. induction f as [|l f IH]; intros w; simpl.
  - split.
    + inversion 1. constructor.
    + inversion 1. constructor.
  - split.
    + inversion 1 as [| |? ? s1 s2 Ha Hb| | | |]; subst.
      inversion Ha as [|? c Hc| | | | |]; subst. simpl in *.
      constructor; [by apply Z.eqb_eq | by apply IH].
    + inversion 1 as [|c ? w' ? Hc Hw]; subst.
      change (c :: w') with ([c] ++ w'). constructor; [|by apply IH].
      constructor. simpl. by apply Z.eqb_eq.
Qed.

(** Under the [i] flag a lower-case ASCII letter of the pattern matches
    itself and its capital, whatever the host's case tables. *)
Lemma Canonicalize_letter c l :
  97 <= l <= 122 -> Canonicalize h c = Canonicalize h l <-> Spec.sameLetter c l.
Proof.
  intros Hl. unfold Canonicalize, Spec.sameLetter.
  repeat case_match;
    repeat match goal with
      | H : (_ && _) = true |- _ => apply andb_true_iff in H as [? ?]
      | H : (_ && _) = false |- _ => apply andb_false_iff in H
      end; lia.
Qed.

Lemma fillerWords_letters f :
  f ∈ Spec.fillerWords -> Forall (fun l => 97 <= l <= 122) f.
Proof.
  unfold Spec.fillerWords. rewrite !elem_of_cons, elem_of_nil.
  intros [->|[->|[->|[->|[->|[->|[]]]]]]]; vm_compute;
    repeat constructor; discriminate.
Qed.

Lemma lang_filler_word f w :
  f ∈ Spec.fillerWords -> lang h (word f) w <-> Forall2 Spec.sameLetter w f.
Proof.
  intros Hf. rewrite lang_word. apply fillerWords_letters in Hf.
  revert w. induction Hf as [|l f Hl _ IH]; intros w.
  - split; inversion 1; constructor.
  - split; inversion 1; subst; constructor;
      try (by apply Canonicalize_letter); by apply IH.
Qed.

Lemma lang_seq_iff r1 r2 s :
  lang h (Seq r1 r2) s <-> exists s1 s2, s = s1 ++ s2 /\ lang h r1 s1 /\ lang h r2 s2.
Proof.
  split.
  - inversion 1; subst; eauto.
  - intros (s1 & s2 & -> & H1 & H2). by constructor.
Qed.

Lemma lang_alt_iff r1 r2 s : lang h (Alt r1 r2) s <-> lang h r1 s \/ lang h r2 s.
Proof.
  split.
  - inversion 1; subst; auto.
  - intros [H1|H2]; [by apply lang_alt_l | by apply lang_alt_r].
Qed.

(** The language of the filler pattern is the denylist of the
    specification. *)
Lemma lang_fillerPattern title :
  lang h fillerPattern title <-> Spec.matchesFiller title.
Proof.
  unfold fillerPattern, Spec.matchesFiller. rewrite lang_seq_iff.
  setoid_rewrite lang_seq_iff. repeat setoid_rewrite lang_alt_iff.
  setoid_rewrite lang_star_NonWord. split.
  - intros (before & rest & -> & Hb & w & after & -> & Hw & Ha).
    assert (exists f, f ∈ Spec.fillerWords /\ lang h (word f) w) as (f & Hf & Hwf).
    { unfold Spec.fillerWords.
      destruct Hw as [?|[?|[?|[?|[?|?]]]]]; eexists; (split; [|eassumption]);
        set_solver. }
    exists before, w, after, f. split_and!; try done. by apply lang_filler_word.
  - intros (before & w & after & f & -> & Hb & Ha & Hf & Hw).
    exists before, (w ++ after). split_and!; try done.
    exists w, after. split_and!; try done.
    apply lang_filler_word in Hw; [|done].
    unfold Spec.fillerWords in Hf. rewrite !elem_of_cons, elem_of_nil in Hf.
    destruct Hf as [->|[->|[->|[->|[->|[->|[]]]]]]]; auto 10.
Qed.

End RegExpFacts.

(** ** Classifier *)

Section ClassifierFacts.
Context (h : Host).

Lemma normalizeText_trim (o : option jsstring) : normalizeText o = trim (default [] o).
Proof. by destruct o as [[|c s]|]. Qed.

Lemma normalizeText_nil (o : option jsstring) :
  normalizeText o = [] <-> Forall (fun c => isWhiteSpace c = true) (default [] o).
Proof. rewrite normalizeText_trim. apply trim_nil. Qed.

Lemma needsNico_unfold (task : Task.t) :
  needsNico h task = true <->
  ((length (normalizeText (Task.title task)) < 8)%nat
   \/ Spec.matchesFiller (normalizeText (Task.title task)))
  /\ normalizeText (Task.description task) = [].
Proof.
  unfold needsNico. cbv zeta.
  rewrite andb_true_iff, orb_true_iff, Nat.ltb_lt, Nat.eqb_eq.
  rewrite accepts_lang, lang_fillerPattern, length_zero_iff_nil. done.
Qed.

Lemma existsb_Exists (text : jsstring) (kws : list jsstring) :
  existsb (fun w => includes text w) kws = true
  <-> Exists (fun w => includes text w = true) kws.
Proof. rewrite existsb_exists, Exists_exists. by setoid_rewrite list_elem_of_In. Qed.

Lemma firstMatch_nil (text : jsstring) : Spec.firstMatch [] text = Spec.defaultBucket.
Proof. done. Qed.

Lemma firstMatch_cons (text : jsstring) kws b rules :
  Spec.firstMatch ((kws, b) :: rules) text
  = if existsb (fun w => includes text w) kws then b else Spec.firstMatch rules text.
Proof.
  unfold Spec.firstMatch. simpl.
  destruct (decide (Spec.ruleMatches text (kws, b))) as [Hr|Hr];
    unfold Spec.ruleMatches in Hr; rewrite <- existsb_Exists in Hr; simpl in Hr.
  - by rewrite Hr.
  - apply not_true_is_false in Hr. rewrite Hr.
    by destruct (list_find _ rules) as [[i r]|].
Qed.

(** The cascade of conditionals is the ordered rule table, first match
    wins. *)
Lemma inferAgentBucket_firstMatch (title description : option jsstring) :
  inferAgentBucket h title description
  = Spec.firstMatch Spec.rules
      (toLowerCase h (normalizeText title ++ [10] ++ normalizeText description)).
Proof.
  unfold inferAgentBucket, Spec.rules. cbv zeta.
  by rewrite !firstMatch_cons, firstMatch_nil.
Qed.

End ClassifierFacts.

(** C1. For every title and description, [needsNico] answers true exactly
    when the trimmed title is shorter than 8 code units or matches the
    filler-word denylist (in any letter case, with surrounding non-word
    characters allowed), and the trimmed description is empty. A missing
    (null) text counts as the empty string. *)
Theorem needsNico_iff_vague (h : Host) (task : Task.t) :
  needsNico h task = true
  <-> Spec.needsClarification (default [] (Task.title task))
        (default [] (Task.description task)).
Proof.
  rewrite needsNico_unfold, !normalizeText_trim. done.
Qed.

(** What "first match wins" means for [Spec.firstMatch]: the bucket of the
    earliest rule that matches, the default bucket when none does. *)
Lemma firstMatch_spec (rules : list (list jsstring * jsstring)) (text : jsstring) :
  (exists i rule,
      rules !! i = Some rule /\ Spec.ruleMatches text rule
      /\ (forall j earlier, rules !! j = Some earlier -> (j < i)%nat ->
            ~ Spec.ruleMatches text earlier)
      /\ Spec.firstMatch rules text = rule.2)
  \/ ((forall rule, rule ∈ rules -> ~ Spec.ruleMatches text rule)
      /\ Spec.firstMatch rules text = Spec.defaultBucket).
Proof.
  unfold Spec.firstMatch.
  destruct (list_find (Spec.ruleMatches text) rules) as [[i rule]|] eqn:Hfind.
  - left. apply list_find_Some in Hfind as (Hi & Hm & Hfirst). eauto 10.
  - right. split; [|done]. apply list_find_None in Hfind.
    intros rule Hin. by eapply Forall_forall in Hfind.
Qed.

(** C3 (as amended). The classifier is a function of title and description
    alone: it evaluates the ordered rules Skool, Ops, Dev, Research against
    the lower-cased text made of the trimmed title, a line feed and the
    trimmed description; the first rule with a keyword occurring in that
    text gives the bucket, and with no such rule the bucket is the default
    one. A missing (null) text counts as the empty string. *)
Theorem inferAgentBucket_ordered_rules (h : Host) (title description : option jsstring) :
  inferAgentBucket h title description
  = Spec.bucketOfLines h (default [] title) (default [] description).
Proof.
  unfold Spec.bucketOfLines. rewrite inferAgentBucket_firstMatch, !normalizeText_trim. done.
Qed.

(** C3 as stated fails: with the title "sk" and the description "ool" the
    plain concatenation contains the keyword "skool", while the text the
    code classifies is "sk", a line feed, "ool" and matches no rule. *)
Lemma inferAgentBucket_not_plain_concatenation :
  inferAgentBucket latin1 (Some (js "sk")) (Some (js "ool")) = js "Jarvis"
  /\ Spec.bucketOfConcatenation latin1 (js "sk") (js "ool") = js "Skool"
  /\ inferAgentBucket latin1 (Some (js "sk")) (Some (js "ool"))
     <> Spec.bucketOfConcatenation latin1 (js "sk") (js "ool").
Proof. vm_compute. split_and!; [done | done | discriminate]. Qed.

(** ** Plan builder *)

Section PlanFacts.
Context (h : Host).

(** The cap: a slice from 0 to 7 never has more than 7 elements. *)
Lemma slice0_length_le {A} (n : nat) (l : list A) : (length (slice0 n l) <= n)%nat.
Proof. unfold slice0. rewrite length_take. lia. Qed.

Lemma inferAgentBucket_cases (title description : option jsstring) :
  inferAgentBucket h title description
  ∈ [js "Skool"; js "Ops"; js "Dev"; js "Research"; js "Jarvis"].
Proof.
  unfold inferAgentBucket. cbv zeta. repeat case_match; set_solver.
Qed.

(** With the present rules the plan has two or three steps and the cap cuts
    nothing. *)
Lemma buildSubtasks_uncut (task : Task.t) :
  buildSubtasks h task = pushedSteps h task
  /\ (length (buildSubtasks h task) = 2 \/ length (buildSubtasks h task) = 3)%nat.
Proof.
  unfold buildSubtasks, pushedSteps. cbv zeta.
  pose proof (inferAgentBucket_cases (Task.title task) (Task.description task)) as Hb.
  revert Hb. generalize (inferAgentBucket h (Task.title task) (Task.description task)).
  intros bucket. rewrite !elem_of_cons, elem_of_nil.
  intros [->|[->|[->|[->|[->|[]]]]]]; vm_compute; auto.
Qed.

End PlanFacts.

(** C2. For every item the plan has between 2 and 7 steps, its first step is
    the scope-clarification step, its last step is the final-validation
    step, and it is the slice of at most 7 steps of what the builder has
    collected. *)
Theorem buildSubtasks_bounds (h : Host) (task : Task.t) :
  (2 <= length (buildSubtasks h task) <= 7)%nat
  /\ Step.title <$> head (buildSubtasks h task) = Some (js "Aclarar alcance y criterios")
  /\ Step.title <$> last (buildSubtasks h task) = Some (js "Validación final")
  /\ buildSubtasks h task = take 7 (pushedSteps h task).
Proof.
  split_and!; [| | | | done].
  1-2: destruct (buildSubtasks_uncut h task) as [_ [-> | ->]]; lia.
  all: unfold buildSubtasks, pushedSteps; cbv zeta;
    generalize (inferAgentBucket h (Task.title task) (Task.description task));
    intros bucket; repeat case_bool_decide; reflexivity.
Qed.

(** ** The coordinator issues the calls of the plan *)

Section ExecFacts.

Lemma exec_app (cs1 cs2 : list Call) (w : World) :
  exec (cs1 ++ cs2) w
  = match exec cs1 w with
    | (None, w1) => exec cs2 w1
    | (Some e, w1) => (Some e, w1)
    end.
Proof.
  revert w. induction cs1 as [|c cs1 IH]; intros w; simpl; [done|].
  destruct (nextFault (faults w)); [done | apply IH].
Qed.

Lemma applyCalls_app (s : Store.t) (cs1 cs2 : list Call) :
  applyCalls s (cs1 ++ cs2) = applyCalls (applyCalls s cs1) cs2.
Proof. apply foldl_app. Qed.

(** The console is not touched by store calls. *)
Lemma exec_console (cs : list Call) (w : World) :
  stdout (exec cs w).2 = stdout w /\ stderr (exec cs w).2 = stderr w
  /\ exitCode (exec cs w).2 = exitCode w.
Proof.
  revert w. induction cs as [|c cs IH]; intros w; simpl; [done|].
  destruct (nextFault (faults w)); [done|].
  exact (IH (withStore w (applyCall (store w) c))).
Qed.

(** When no call fails, all of them have been applied. *)
Lemma exec_complete (cs : list Call) (w : World) :
  (exec cs w).1 = None ->
  store (exec cs w).2 = applyCalls (store w) cs
  /\ faults (exec cs w).2 = drop (length cs) (faults w)
  /\ Forall (fun f => f = None) (take (length cs) (faults w)).
Proof.
  revert w. induction cs as [|c cs IH]; intros w; simpl.
  - intros _. split_and!; [done | done | constructor].
  - destruct (nextFault (faults w)) eqn:Hf; [done|]. intros Hok.
    destruct (IH _ Hok) as (Hs & Hfs & Hnone). simpl in *.
    rewrite Hs, Hfs. split_and!; [done | |].
    + destruct (faults w); simpl; [by rewrite drop_nil | done].
    + destruct (faults w) as [|[e|] fs]; simpl in *; [constructor | done |].
      by constructor.
Qed.

(** When a call fails, the calls before it have been applied, the failing
    one and those after it have not, and the schedule has been consumed up
    to the failing call. *)
Lemma exec_failed (cs : list Call) (w : World) (e : StoreError) :
  (exec cs w).1 = Some e ->
  exists k, (k < length cs)%nat
    /\ faults w !! k = Some (Some e)
    /\ Forall (fun f => f = None) (take k (faults w))
    /\ store (exec cs w).2 = applyCalls (store w) (take k cs)
    /\ faults (exec cs w).2 = drop (S k) (faults w).
Proof.
  revert w. induction cs as [|c cs IH]; intros w; simpl; [done|].
  destruct (nextFault (faults w)) as [e'|] eqn:Hf; simpl.
  - intros [= ->]. exists 0%nat. destruct (faults w) as [|[e'|] fs]; simplify_eq/=.
    split_and!; try done; lia.
  - intros Hfail. destruct (IH _ Hfail) as (k & Hk & Hat & Hnone & Hs & Hfs).
    exists (S k). simpl in *.
    destruct (faults w) as [|[e'|] fs]; simplify_eq/=.
    split_and!; try done; [lia | by constructor].
Qed.

Lemma none_before (fs : list (option StoreError)) (k j : nat) (f : option StoreError) :
  Forall (fun f => f = None) (take k fs) -> fs !! j = Some f -> (j < k)%nat -> f = None.
Proof.
  intros Hnone Hj Hlt. eapply (Forall_lookup_1 _ _ j f) in Hnone; [done|].
  by apply lookup_take_Some.
Qed.

(** The outcome of a sequence of calls in terms of the schedule alone. *)
Lemma exec_no_fault (cs : list Call) (w : World) :
  Forall (fun f => f = None) (take (length cs) (faults w)) -> (exec cs w).1 = None.
Proof.
  intros Hnone. destruct (exec cs w).1 as [e|] eqn:He; [|done].
  apply exec_failed in He as (k & Hk & Hat & _).
  by pose proof (none_before _ _ _ _ Hnone Hat Hk).
Qed.

Lemma exec_fault_at (cs : list Call) (w : World) (k : nat) (e : StoreError) :
  (k < length cs)%nat -> faults w !! k = Some (Some e) ->
  Forall (fun f => f = None) (take k (faults w)) ->
  (exec cs w).1 = Some e
  /\ store (exec cs w).2 = applyCalls (store w) (take k cs)
  /\ faults (exec cs w).2 = drop (S k) (faults w).
Proof.
  intros Hk Hat Hnone.
  assert (Hfirst : forall k' e', faults w !! k' = Some (Some e') ->
            Forall (fun f => f = None) (take k' (faults w)) -> k' = k /\ e' = e).
  { intros k' e' Hat' Hnone'.
    destruct (Nat.lt_total k k') as [Hlt|[->|Hlt]].
    - by pose proof (none_before _ _ _ _ Hnone' Hat Hlt).
    - by simplify_eq.
    - by pose proof (none_before _ _ _ _ Hnone Hat' Hlt). }
  destruct (exec cs w).1 as [e'|] eqn:He.
  - apply exec_failed in He as (k' & Hk' & Hat' & Hnone' & Hs & Hfs).
    destruct (Hfirst k' e' Hat' Hnone') as [-> ->]. done.
  - apply exec_complete in He as (_ & _ & Hall).
    by pose proof (none_before _ _ _ _ Hall Hat Hk).
Qed.

End ExecFacts.

Section CoordinatorFacts.
Context (h : Host) (OWNER_ID : jsstring).

#[local] Arguments js : simpl never.
#[local] Arguments commentBody : simpl never.
#[local] Arguments needsNico : simpl never.
#[local] Arguments buildSubtasks : simpl never.
#[local] Arguments subtaskRows : simpl never.
#[local] Arguments selectSubtasks : simpl never.
#[local] Arguments selectTasks : simpl never.
#[local] Arguments selectActiveAgents : simpl never.
#[local] Arguments applyWrite : simpl never.

#[local] Ltac next_call :=
  match goal with
  | |- context [nextFault ?fs] => destruct (nextFault fs) eqn:?; simpl
  end.

(** One turn of the loop issues the calls of [itemCalls], in order, up to
    the first that fails. *)
Lemma processTask_exec roster jarvisId (task : Task.t) (processed : list Processed.t)
    (w : World) :
  processTask h OWNER_ID roster jarvisId task processed w
  = (match (exec (itemCalls h OWNER_ID roster jarvisId (store w) task) w).1 with
     | None => Normal (processed ++ itemSummary h OWNER_ID roster jarvisId (store w) task)
     | Some e => Throw e
     end,
     (exec (itemCalls h OWNER_ID roster jarvisId (store w) task) w).2).
Proof.
  unfold processTask, itemCalls, itemSummary.
  case_bool_decide as Hst; simpl; [|by rewrite app_nil_r].
  unfold insertActivity, bind, read, write, request, throwIf, ret, throw,
    decomposes, alreadyHas, planRows, targetStatus, activityEntry, summaryComment.
  simpl. next_call; [done|].
  destruct (negb _ && negb _) eqn:Hdec; simpl.
  - repeat (next_call; [done|]).
    destruct (length _ =? 0)%nat eqn:Hlen; simpl;
      repeat (next_call; [done|]); reflexivity.
  - repeat (next_call; [done|]). reflexivity.
Qed.

Lemma forOf_exec roster jarvisId (tasks : list Task.t) (processed : list Processed.t)
    (w : World) :
  forOf (processTask h OWNER_ID roster jarvisId) tasks processed w
  = (match (exec (batchCalls h OWNER_ID roster jarvisId (store w) tasks) w).1 with
     | None => Normal (processed ++ batchSummary h OWNER_ID roster jarvisId (store w) tasks)
     | Some e => Throw e
     end,
     (exec (batchCalls h OWNER_ID roster jarvisId (store w) tasks) w).2).
Proof.
  revert processed w. induction tasks as [|task tasks IH]; intros processed w; simpl.
  - by rewrite app_nil_r.
  - unfold bind at 1. rewrite processTask_exec, exec_app.
    destruct (exec (itemCalls h OWNER_ID roster jarvisId (store w) task) w)
      as [[e|] w1] eqn:He; simpl; [done|].
    destruct (exec_complete (itemCalls h OWNER_ID roster jarvisId (store w) task) w)
      as (Hs & _); [by rewrite He|].
    rewrite He in Hs. simpl in Hs. rewrite IH, Hs, app_assoc. done.
Qed.

Lemma printed_printed (w : World) (l1 l2 : list jsstring) :
  printed (printed w l1) l2 = printed w (l1 ++ l2).
Proof. unfold printed. simpl. by rewrite app_assoc. Qed.

Lemma forOf_console_log {A} (line : A -> jsstring) (l : list A) (w : World) :
  forOf (fun p _ => console_log (line p)) l tt w = (Normal tt, printed w (line <$> l)).
Proof.
  revert w. induction l as [|p l IH]; intros w; simpl.
  - unfold ret, printed. rewrite app_nil_r. by destruct w.
  - unfold bind. simpl. change (forOf _ l tt ?w') with
      (forOf (fun p _ => console_log (line p)) l tt w').
    rewrite IH. f_equal. unfold printed. simpl. by rewrite <- app_assoc.
Qed.

#[local] Opaque js.

(** [main] issues the calls of [runCalls] up to the first that fails, and
    prints its report when none does. *)
Lemma main_exec (w : World) :
  main h OWNER_ID w
  = match exec (runCalls h OWNER_ID (store w)) w with
    | (None, w') => (Normal tt, printed w' (report (runSummary h OWNER_ID (store w))))
    | (Some e, w') => (Throw e, w')
    end.
Proof.
  unfold main, runCalls, runSummary, getAgentRoster. simpl.
  unfold bind at 1 2. unfold read at 1. unfold request at 1.
  destruct (nextFault (faults w)) as [e|] eqn:Hf1; simpl; [done|].
  unfold bind at 1. unfold read at 1. unfold request at 1. simpl.
  destruct (nextFault (tail (faults w))) as [e|] eqn:Hf2; simpl; [done|].
  unfold bind at 1. unfold ret at 1. cbv beta iota.
  unfold bind at 1. rewrite forOf_exec. simpl.
  fold (rosterOf h OWNER_ID (store w)). fold (jarvisIdOf h OWNER_ID (store w)).
  fold (batchOf OWNER_ID (store w)).
  destruct (exec _ _) as [[e|] w'] eqn:He; simpl; [done|].
  unfold report. destruct (length _ =? 0)%nat; [done|].
  unfold bind, console_log at 1. rewrite forOf_console_log.
  fold (printed w' [js "Procesado: " ++ numberToString
                      (length (batchSummary h OWNER_ID (rosterOf h OWNER_ID (store w))
                                 (jarvisIdOf h OWNER_ID (store w)) (store w)
                                 (batchOf OWNER_ID (store w)))) ++ js " tasks"]).
  by rewrite printed_printed.
Qed.

#[local] Transparent js.

Lemma run_exec (w : World) :
  run h OWNER_ID w
  = match exec (runCalls h OWNER_ID (store w)) w with
    | (None, w') => printed w' (report (runSummary h OWNER_ID (store w)))
    | (Some e, w') => failed w' (errorLine e)
    end.
Proof.
  unfold run. rewrite main_exec. by destruct (exec _ _) as [[e|] w'].
Qed.

End CoordinatorFacts.

(** ** What the calls do to the relations *)

Section StoreFacts.

Lemma applyCalls_cons (s : Store.t) (c : Call) (cs : list Call) :
  applyCalls s (c :: cs) = applyCalls (applyCall s c) cs.
Proof. done. Qed.

Lemma applyCalls_subtasks (s : Store.t) (cs : list Call) :
  Store.subtasks (applyCalls s cs) = Store.subtasks s ++ insertedSubtasks cs.
Proof.
  revert s. induction cs as [|c cs IH]; intros s.
  - simpl. by rewrite app_nil_r.
  - rewrite applyCalls_cons, IH. unfold insertedSubtasks. simpl.
    destruct c as [|[rows|x|x|owner id expected new]]; simpl;
      by rewrite ?app_nil_r, ?app_assoc.
Qed.

Lemma applyCalls_comments (s : Store.t) (cs : list Call) :
  Store.comments (applyCalls s cs) = Store.comments s ++ insertedComments cs.
Proof.
  revert s. induction cs as [|c cs IH]; intros s.
  - simpl. by rewrite app_nil_r.
  - rewrite applyCalls_cons, IH. unfold insertedComments. simpl.
    destruct c as [|[rows|x|x|owner id expected new]]; simpl;
      by rewrite <- ?app_assoc.
Qed.

Lemma applyCalls_activity (s : Store.t) (cs : list Call) :
  Store.activity_log (applyCalls s cs) = Store.activity_log s ++ insertedActivity cs.
Proof.
  revert s. induction cs as [|c cs IH]; intros s.
  - simpl. by rewrite app_nil_r.
  - rewrite applyCalls_cons, IH. unfold insertedActivity. simpl.
    destruct c as [|[rows|x|x|owner id expected new]]; simpl;
      by rewrite <- ?app_assoc.
Qed.

Lemma applyCalls_agents (s : Store.t) (cs : list Call) :
  Store.agents (applyCalls s cs) = Store.agents s.
Proof.
  revert s. induction cs as [|c cs IH]; intros s; [done|].
  rewrite applyCalls_cons, IH. by destruct c as [|[rows|x|x|owner id expected new]].
Qed.

Lemma insertedSubtasks_app (cs1 cs2 : list Call) :
  insertedSubtasks (cs1 ++ cs2) = insertedSubtasks cs1 ++ insertedSubtasks cs2.
Proof. apply bind_app. Qed.

Lemma insertedComments_app (cs1 cs2 : list Call) :
  insertedComments (cs1 ++ cs2) = insertedComments cs1 ++ insertedComments cs2.
Proof. apply bind_app. Qed.

Lemma insertedActivity_app (cs1 cs2 : list Call) :
  insertedActivity (cs1 ++ cs2) = insertedActivity cs1 ++ insertedActivity cs2.
Proof. apply bind_app. Qed.

Lemma selectSubtasks_subtasksFor (owner id : jsstring) (n : nat) (s : Store.t) :
  selectSubtasks owner id n s = take n (subtasksFor owner id s).
Proof. done. Qed.

End StoreFacts.

Section RunFacts.
Context (h : Host) (OWNER_ID : jsstring).

(** Whatever the schedule of faults, the store a run leaves is the store it
    found with a prefix of the calls of the complete run applied. *)
Lemma run_store (w : World) :
  exists k, (k <= length (runCalls h OWNER_ID (store w)))%nat
    /\ store (run h OWNER_ID w)
       = applyCalls (store w) (take k (runCalls h OWNER_ID (store w))).
Proof.
  rewrite run_exec.
  destruct (exec (runCalls h OWNER_ID (store w)) w) as [[e|] w'] eqn:He; simpl.
  - destruct (exec_failed (runCalls h OWNER_ID (store w)) w e) as (k & Hk & _ & _ & Hs & _);
      [by rewrite He|].
    rewrite He in Hs. exists k. simpl in *. split; [lia | done].
  - destruct (exec_complete (runCalls h OWNER_ID (store w)) w) as (Hs & _);
      [by rewrite He|].
    rewrite He in Hs. exists (length (runCalls h OWNER_ID (store w))).
    split; [done|]. by rewrite firstn_all.
Qed.

(** Without a fault, the run is complete. *)
Lemma run_complete (w : World) :
  Forall (fun f => f = None) (faults w) ->
  run h OWNER_ID w
  = printed {| store := applyCalls (store w) (runCalls h OWNER_ID (store w));
               faults := drop (length (runCalls h OWNER_ID (store w))) (faults w);
               stdout := stdout w; stderr := stderr w; exitCode := exitCode w |}
      (report (runSummary h OWNER_ID (store w))).
Proof.
  intros Hnone. rewrite run_exec.
  assert (Hok : (exec (runCalls h OWNER_ID (store w)) w).1 = None)
    by by apply exec_no_fault, Forall_take.
  destruct (exec_complete _ _ Hok) as (Hs & Hf & _).
  destruct (exec_console (runCalls h OWNER_ID (store w)) w) as (Ho & Herr & Hx).
  destruct (exec (runCalls h OWNER_ID (store w)) w) as [r w'] eqn:He.
  simpl in Hok, Hs, Hf, Ho, Herr, Hx. subst r.
  destruct w'. simpl in *. by subst.
Qed.

End RunFacts.

Section ItemFacts.
Context (h : Host) (OWNER_ID : jsstring).

Lemma itemCalls_subtasks roster jarvisId (s : Store.t) (task : Task.t) :
  insertedSubtasks (itemCalls h OWNER_ID roster jarvisId s task)
  = if bool_decide (Task.status task = inbox) && decomposes h OWNER_ID s task
    then planRows h OWNER_ID roster jarvisId task else [].
Proof.
  unfold itemCalls, insertedSubtasks. case_bool_decide; [|done]. simpl.
  destruct (decomposes h OWNER_ID s task); simpl; by rewrite ?app_nil_r.
Qed.

Lemma itemCalls_comments roster jarvisId (s : Store.t) (task : Task.t) :
  insertedComments (itemCalls h OWNER_ID roster jarvisId s task)
  = if bool_decide (Task.status task = inbox)
    then [summaryComment h OWNER_ID jarvisId task] else [].
Proof.
  unfold itemCalls, insertedComments. case_bool_decide; [|done]. simpl.
  by destruct (decomposes h OWNER_ID s task).
Qed.

Lemma itemCalls_activity roster jarvisId (s : Store.t) (task : Task.t) :
  insertedActivity (itemCalls h OWNER_ID roster jarvisId s task)
  = if bool_decide (Task.status task = inbox)
    then (if decomposes h OWNER_ID s task
          then [activityEntry OWNER_ID jarvisId create_subtasks (Task.id task)
                  (DataCreated (length (planRows h OWNER_ID roster jarvisId task)))]
          else [])
         ++ [activityEntry OWNER_ID jarvisId add_comment (Task.id task)
               (DataKind (js "triage_summary"));
             activityEntry OWNER_ID jarvisId move_status (Task.id task)
               (DataMove inbox (targetStatus h task))]
    else [].
Proof.
  unfold itemCalls, insertedActivity. case_bool_decide; [|done]. simpl.
  by destruct (decomposes h OWNER_ID s task).
Qed.

Lemma itemCalls_length roster jarvisId (s : Store.t) (task : Task.t) :
  (length (itemCalls h OWNER_ID roster jarvisId s task) <= 7)%nat.
Proof.
  unfold itemCalls. case_bool_decide; simpl; [|lia].
  destruct (decomposes h OWNER_ID s task); simpl; lia.
Qed.

(** The comments of a batch: one per item, in the order of the batch. *)
Lemma batchCalls_comments roster jarvisId (s : Store.t) (tasks : list Task.t) :
  Forall (fun t => Task.status t = inbox) tasks ->
  insertedComments (batchCalls h OWNER_ID roster jarvisId s tasks)
  = summaryComment h OWNER_ID jarvisId <$> tasks.
Proof.
  intros Hin. revert s. induction Hin as [|task tasks Hst _ IH]; intros s; [done|].
  simpl. rewrite insertedComments_app, itemCalls_comments, IH.
  by rewrite bool_decide_true.
Qed.

End ItemFacts.

(** ** The batch *)

#[global] Instance olderOrSame_trans : Transitive olderOrSame.
Proof. intros a b c. unfold olderOrSame. lia. Qed.

#[global] Instance olderOrSame_total : Total olderOrSame.
Proof. intros a b. unfold olderOrSame. lia. Qed.

Lemma StronglySorted_take {A} (R : relation A) (n : nat) (l : list A) :
  StronglySorted R l -> StronglySorted R (take n l).
Proof.
  intros Hs. rewrite <- (take_drop n l) in Hs. by apply StronglySorted_app_1_l in Hs.
Qed.

Section BatchFacts.
Context (OWNER_ID : jsstring).

Lemma batchOf_unfold (s : Store.t) :
  batchOf OWNER_ID s = take 20 (merge_sort olderOrSame (candidates OWNER_ID s)).
Proof. done. Qed.

Lemma batchOf_elem (s : Store.t) (t : Task.t) :
  t ∈ batchOf OWNER_ID s ->
  t ∈ Store.tasks s /\ Task.owner_id t = OWNER_ID /\ Task.status t = inbox.
Proof.
  rewrite batchOf_unfold. intros Ht.
  apply (subseteq_take 20) in Ht. rewrite merge_sort_Permutation in Ht.
  apply list_elem_of_filter in Ht. tauto.
Qed.

Lemma batchOf_inbox (s : Store.t) :
  Forall (fun t => Task.status t = inbox) (batchOf OWNER_ID s).
Proof. apply Forall_forall. intros t Ht. by apply batchOf_elem in Ht as (_ & _ & Hst). Qed.

Lemma batchOf_length (s : Store.t) : (length (batchOf OWNER_ID s) <= 20)%nat.
Proof. rewrite batchOf_unfold, length_take. lia. Qed.

Lemma batchOf_sorted (s : Store.t) : StronglySorted olderOrSame (batchOf OWNER_ID s).
Proof.
  rewrite batchOf_unfold. apply StronglySorted_take, StronglySorted_merge_sort; apply _.
Qed.

(** An inbox item of the owner that is left out is not older than any item
    of the batch. *)
Lemma batchOf_oldest (s : Store.t) (r t : Task.t) :
  r ∈ Store.tasks s -> Task.owner_id r = OWNER_ID -> Task.status r = inbox ->
  r ∉ batchOf OWNER_ID s -> t ∈ batchOf OWNER_ID s -> olderOrSame t r.
Proof.
  rewrite batchOf_unfold. intros Hr Ho Hst Hout Ht.
  assert (Hsorted : StronglySorted olderOrSame (merge_sort olderOrSame (candidates OWNER_ID s)))
    by (apply StronglySorted_merge_sort; apply _).
  assert (Hin : r ∈ merge_sort olderOrSame (candidates OWNER_ID s)).
  { rewrite merge_sort_Permutation. by apply list_elem_of_filter. }
  rewrite <- (take_drop 20 (merge_sort olderOrSame (candidates OWNER_ID s))) in Hsorted, Hin.
  apply elem_of_app in Hin as [Hin|Hin]; [done|].
  by eapply StronglySorted_app_1_elem_of.
Qed.

End BatchFacts.

(** ** Failure semantics *)

(** C9. A store call that fails while the run is under way ends the run at
    once: the store keeps exactly the effects of the calls made before the
    failing one (nothing is undone, nothing more is attempted), nothing is
    printed on standard output, the error is reported on standard error and
    the exit code is 1. When the backlog is empty and the two queries
    succeed, the run changes nothing in the store, prints the
    zero-items-processed line and leaves the exit code as it was. *)
Theorem run_fail_fast (h : Host) (OWNER_ID : jsstring) (w : World) :
  (forall (k : nat) (e : StoreError),
      (k < length (runCalls h OWNER_ID (store w)))%nat ->
      faults w !! k = Some (Some e) ->
      Forall (fun f => f = None) (take k (faults w)) ->
      run h OWNER_ID w
      = {| store := applyCalls (store w) (take k (runCalls h OWNER_ID (store w)));
           faults := drop (S k) (faults w);
           stdout := stdout w;
           stderr := stderr w ++ [errorLine e];
           exitCode := 1 |})
  /\ (batchOf OWNER_ID (store w) = [] ->
      Forall (fun f => f = None) (take 2 (faults w)) ->
      run h OWNER_ID w
      = {| store := store w;
           faults := drop 2 (faults w);
           stdout := stdout w ++ [js "Procesado: 0 tasks (no había tasks en inbox)."];
           stderr := stderr w;
           exitCode := exitCode w |}).
Proof.
  split.
  - intros k e Hk Hat Hnone. rewrite run_exec.
    destruct (exec_fault_at _ w k e Hk Hat Hnone) as (Hr & Hs & Hf).
    destruct (exec_console (runCalls h OWNER_ID (store w)) w) as (Ho & Herr & Hx).
    destruct (exec (runCalls h OWNER_ID (store w)) w) as [r w'] eqn:He.
    simpl in Hr, Hs, Hf, Ho, Herr, Hx. subst r.
    destruct w'. unfold failed. simpl in *. by subst.
  - intros Hempty Hnone. rewrite run_exec.
    unfold runCalls, runSummary. rewrite Hempty. simpl.
    assert (nextFault (faults w) = None /\ nextFault (tail (faults w)) = None)
      as [-> ->].
    { destruct (faults w) as [|[e|] [|[e'|] fs]]; simpl in *; try done;
        repeat match goal with H : Forall _ (_ :: _) |- _ => inversion H; clear H; subst end;
        done. }
    unfold printed, withStore. simpl. f_equal.
    destruct (faults w) as [|f [|f' fs]]; done.
Qed.

Lemma run_fail_fast_witness :
  run latin1 Sample.owner
    (Sample.start Sample.board [None; None; None; None; None; Some Sample.timeout; None])
  = {| store := applyCalls Sample.board (take 5 (runCalls latin1 Sample.owner Sample.board));
       faults := [None];
       stdout := [];
       stderr := [errorLine Sample.timeout];
       exitCode := 1 |}
  /\ run latin1 Sample.owner (Sample.start Sample.quietBoard [])
     = {| store := Sample.quietBoard;
          faults := [];
          stdout := [js "Procesado: 0 tasks (no había tasks en inbox)."];
          stderr := [];
          exitCode := 0 |}.
Proof.
  split.
  - apply (proj1 (run_fail_fast latin1 Sample.owner
             (Sample.start Sample.board
                [None; None; None; None; None; Some Sample.timeout; None])) 5%nat
             Sample.timeout).
    + vm_compute. lia.
    + reflexivity.
    + vm_compute. repeat constructor.
  - apply (proj2 (run_fail_fast latin1 Sample.owner (Sample.start Sample.quietBoard []))).
    + vm_compute. reflexivity.
    + vm_compute. constructor.
Defined.

(** The failing run above, evaluated: the update of the status of the first
    item fails; its comment and the log entry of the comment stay in the
    store, its status is still [inbox], the second item is never looked at. *)
Example fail_fast_sample :
  let w := run latin1 Sample.owner
             (Sample.start Sample.board
                [None; None; None; None; None; Some Sample.timeout; None]) in
  Comment.task_id <$> Store.comments (store w) = [js "t2"]
  /\ Activity.action <$> Store.activity_log (store w) = [add_comment]
  /\ Task.status <$> Store.tasks (store w) = [inbox; inbox; review]
  /\ Store.subtasks (store w) = []
  /\ stdout w = []
  /\ stderr w = [[ArgString (js "ERROR triage:"); ArgString (js "upstream request timeout")]]
  /\ exitCode w = 1.
Proof. vm_compute. done. Qed.

Section AddedFacts.

Lemma addedSubtasks_applyCalls (s : Store.t) (cs : list Call) :
  addedSubtasks s (applyCalls s cs) = insertedSubtasks cs.
Proof. unfold addedSubtasks. by rewrite applyCalls_subtasks, drop_app_length. Qed.

Lemma addedComments_applyCalls (s : Store.t) (cs : list Call) :
  addedComments s (applyCalls s cs) = insertedComments cs.
Proof. unfold addedComments. by rewrite applyCalls_comments, drop_app_length. Qed.

Lemma addedActivity_applyCalls (s : Store.t) (cs : list Call) :
  addedActivity s (applyCalls s cs) = insertedActivity cs.
Proof. unfold addedActivity. by rewrite applyCalls_activity, drop_app_length. Qed.

Lemma insertedComments_take (k : nat) (cs : list Call) :
  insertedComments (take k cs) `prefix_of` insertedComments cs.
Proof.
  rewrite <- (take_drop k cs) at 2. rewrite insertedComments_app. by eexists.
Qed.

End AddedFacts.

(** C8. A run fetches at most 20 items, all of them rows of the owner with
    status [inbox], in ascending order of creation time, and it takes them
    in that order: the summary comments it appends follow the order of the
    batch (a prefix of it when the run is cut short by a failing call, the
    whole batch when no call fails). *)
Theorem run_batch_fifo (h : Host) (OWNER_ID : jsstring) (w : World) :
  (length (batchOf OWNER_ID (store w)) <= 20)%nat
  /\ Forall (fun t => t ∈ Store.tasks (store w)
                      /\ Task.owner_id t = OWNER_ID /\ Task.status t = inbox)
       (batchOf OWNER_ID (store w))
  /\ StronglySorted olderOrSame (batchOf OWNER_ID (store w))
  /\ Comment.task_id <$> addedComments (store w) (store (run h OWNER_ID w))
     `prefix_of` Task.id <$> batchOf OWNER_ID (store w)
  /\ (Forall (fun f => f = None) (faults w) ->
      Comment.task_id <$> addedComments (store w) (store (run h OWNER_ID w))
      = Task.id <$> batchOf OWNER_ID (store w)).
Proof.
  assert (Hall : Comment.task_id <$> insertedComments (runCalls h OWNER_ID (store w))
                 = Task.id <$> batchOf OWNER_ID (store w)).
  { unfold runCalls. change (insertedComments (Read :: Read :: ?cs)) with (insertedComments cs).
    rewrite batchCalls_comments by apply batchOf_inbox.
    rewrite <- list_fmap_compose. done. }
  split_and!.
  - apply batchOf_length.
  - apply Forall_forall. intros t Ht. by apply batchOf_elem.
  - apply batchOf_sorted.
  - destruct (run_store h OWNER_ID w) as (k & _ & ->).
    rewrite addedComments_applyCalls, <- Hall.
    destruct (insertedComments_take k (runCalls h OWNER_ID (store w))) as [rest ->].
    rewrite fmap_app. by eexists.
  - intros Hnone. rewrite run_complete by done. unfold printed. simpl.
    by rewrite addedComments_applyCalls.
Qed.

Lemma run_batch_fifo_witness :
  Comment.task_id <$> addedComments Sample.board
    (store (run latin1 Sample.owner (Sample.start Sample.board [])))
  = Task.id <$> [Sample.ayuda; Sample.fixBug].
Proof.
  apply (proj2 (proj2 (proj2 (proj2
           (run_batch_fifo latin1 Sample.owner (Sample.start Sample.board [])))))).
  vm_compute. constructor.
Defined.

(** ** Roster resolver *)

Section RosterFacts.
Context (h : Host) (OWNER_ID : jsstring).

Lemma orNull_default (x : jsstring) : default [] (orNull x) = x.
Proof. by destruct x. Qed.

(** The map [getAgentRoster] builds keeps, under each key, the last active
    agent of the owner whose lower-cased name is the key. *)
Lemma rosterOf_lookup (s : Store.t) (key : jsstring) :
  rosterOf h OWNER_ID s !! key
  = last (Spec.entriesUnder h (selectActiveAgents OWNER_ID s) key).
Proof.
  unfold rosterOf, Spec.entriesUnder.
  induction (selectActiveAgents OWNER_ID s) as [|a l IH] using rev_ind; [done|].
  rewrite foldl_snoc, filter_app, lookup_insert, filter_cons, filter_nil.
  repeat case_decide; try done.
  - by rewrite last_snoc.
  - by rewrite app_nil_r.
Qed.

Lemma jarvisIdOf_lookup (s : Store.t) :
  jarvisIdOf h OWNER_ID s
  = Spec.identityUnder h (selectActiveAgents OWNER_ID s) (js "jarvis").
Proof. unfold jarvisIdOf, Spec.identityUnder. by rewrite rosterOf_lookup. Qed.

(** When its query succeeds, [getAgentRoster] returns that map. *)
Lemma getAgentRoster_ok (w : World) :
  nextFault (faults w) = None ->
  getAgentRoster h OWNER_ID w = (Normal (rosterOf h OWNER_ID (store w)), withStore w (store w)).
Proof.
  intros Hf. unfold getAgentRoster, bind, read, request. by rewrite Hf.
Qed.

End RosterFacts.

(** C7. The assignee of a step is found by looking its bucket name up,
    lower-cased, in the map of the active roster keyed by lower-cased
    names; without a usable entry the default automated agent (the entry
    under "jarvis") is taken, and without that one the step is unassigned
    (null). The resolution is a total function of the bucket. *)
Theorem pickId_resolution (h : Host) (OWNER_ID : jsstring) (s : Store.t) (bucket : jsstring) :
  pickId h (rosterOf h OWNER_ID s) (jarvisIdOf h OWNER_ID s) bucket
  = Spec.resolveAssignee h (selectActiveAgents OWNER_ID s) bucket.
Proof.
  unfold pickId, Spec.resolveAssignee. cbv zeta.
  rewrite orNull_default, rosterOf_lookup, jarvisIdOf_lookup.
  unfold Spec.identityUnder.
  destruct (last (Spec.entriesUnder h _ (toLowerCase h bucket)) ≫= _); [done|].
  by destruct (last _ ≫= _).
Qed.

Example pickId_case_insensitive :
  pickId latin1 (rosterOf latin1 Sample.owner Sample.board)
    (jarvisIdOf latin1 Sample.owner Sample.board) <$> [js "Dev"; js "dEV"; js "Ops"; js "Skool"]
  = [Some (js "agent-dev"); Some (js "agent-dev"); Some (js "agent-jarvis");
     Some (js "agent-jarvis")].
Proof. vm_compute. reflexivity. Qed.

Example pickId_unassigned :
  pickId latin1 ∅ None (js "Dev") = None.
Proof. vm_compute. reflexivity. Qed.

(** ** Inserted subtask rows *)

Section RowFacts.
Context (h : Host) (OWNER_ID : jsstring).

Lemma buildSubtasks_done_stated (task : Task.t) :
  Forall (fun step => Step.definition_of_done step <> []) (buildSubtasks h task).
Proof.
  unfold buildSubtasks, pushedSteps. cbv zeta.
  generalize (inferAgentBucket h (Task.title task) (Task.description task)).
  intros bucket. repeat case_bool_decide; vm_compute; repeat constructor; discriminate.
Qed.

Lemma subtaskRows_rowsOfPlan roster jarvisId (task : Task.t) (plan : list Step.t) :
  Forall (fun step => Step.definition_of_done step <> []) plan ->
  Spec.rowsOfPlan OWNER_ID task plan (subtaskRows h OWNER_ID roster jarvisId task plan).
Proof.
  unfold Spec.rowsOfPlan, subtaskRows.
  enough (Hgen : forall n (f : nat -> nat), (forall i, f i = (n + i)%nat) ->
            Forall (fun step => Step.definition_of_done step <> []) plan ->
            Forall2 (fun '(idx, step) row => Spec.rowOfStep OWNER_ID task idx step row)
              (zip (seq n (length plan)) plan)
              (imap (fun idx p =>
                 {| Subtask.owner_id := OWNER_ID; Subtask.task_id := Task.id task;
                    Subtask.title := Step.title p; Subtask.status := in_progress;
                    Subtask.assignee_agent_id := pickId h roster jarvisId (Step.bucket p);
                    Subtask.definition_of_done := Step.definition_of_done p;
                    Subtask.sort_order := f idx;
                    Subtask.metadata_triage_bucket := Step.bucket p |}) plan)).
  { intros Hd. apply (Hgen 0%nat (fun i => i)); done. }
  induction plan as [|step plan IH]; intros n f Hf Hd; simpl; [constructor|].
  inversion Hd as [|? ? Hstep Hrest]; subst. constructor.
  - unfold Spec.rowOfStep. simpl. rewrite Hf, Nat.add_0_r. done.
  - apply (IH (S n) (f ∘ S)); [|done]. intros i. simpl. rewrite Hf. lia.
Qed.

Lemma planRows_rowsOfPlan roster jarvisId (task : Task.t) :
  Spec.rowsOfPlan OWNER_ID task (buildSubtasks h task)
    (planRows h OWNER_ID roster jarvisId task).
Proof. apply subtaskRows_rowsOfPlan, buildSubtasks_done_stated. Qed.

Lemma insertedSubtasks_batches (cs : list Call) :
  insertedSubtasks cs = concat (subtaskBatches cs).
Proof.
  unfold insertedSubtasks, subtaskBatches.
  induction cs as [|[|[rows|x|x|owner id expected new]] cs IH]; [done|..];
    simpl; try apply (f_equal (app rows)); exact IH.
Qed.

Lemma subtaskBatches_app (cs1 cs2 : list Call) :
  subtaskBatches (cs1 ++ cs2) = subtaskBatches cs1 ++ subtaskBatches cs2.
Proof. apply omap_app. Qed.

Lemma itemCalls_batches roster jarvisId (s : Store.t) (task : Task.t) :
  subtaskBatches (itemCalls h OWNER_ID roster jarvisId s task)
  = if bool_decide (Task.status task = inbox) && decomposes h OWNER_ID s task
    then [planRows h OWNER_ID roster jarvisId task] else [].
Proof.
  unfold itemCalls, subtaskBatches. case_bool_decide; [|done]. simpl.
  by destruct (decomposes h OWNER_ID s task).
Qed.

(** The batches of a run are the rows of the plans of some of the items, in
    the order of the batch. *)
Lemma batchCalls_batches roster jarvisId (s : Store.t) (tasks : list Task.t) :
  exists decomposed,
    decomposed `sublist_of` tasks
    /\ subtaskBatches (batchCalls h OWNER_ID roster jarvisId s tasks)
       = planRows h OWNER_ID roster jarvisId <$> decomposed.
Proof.
  revert s. induction tasks as [|task tasks IH]; intros s; simpl.
  - by exists [].
  - destruct (IH (applyCalls s (itemCalls h OWNER_ID roster jarvisId s task)))
      as (decomposed & Hsub & Heq).
    rewrite subtaskBatches_app, itemCalls_batches, Heq.
    destruct (_ && _).
    + exists (task :: decomposed). split; [by constructor | done].
    + exists decomposed. split; [by constructor | done].
Qed.

Lemma prefix_fmap_take {A B} (f : A -> B) (l : list B) (k : list A) :
  l `prefix_of` f <$> k -> l = f <$> take (length l) k.
Proof.
  intros [rest Hk]. rewrite fmap_take, Hk. by rewrite take_app_length.
Qed.

End RowFacts.

(** C10. The subtask rows a run inserts are, batch by batch, the rows of the
    plans of items of the fetched batch: the row at position [idx] of a
    batch has status [in_progress], sort order [idx], the bucket of the step
    at that position as [metadata.triage_bucket], and that step's
    definition of done, which is not empty. *)
Theorem run_inserted_rows (h : Host) (OWNER_ID : jsstring) (w : World) :
  exists (decomposed : list Task.t) (batches : list (list Subtask.t)),
    decomposed `sublist_of` batchOf OWNER_ID (store w)
    /\ addedSubtasks (store w) (store (run h OWNER_ID w)) = concat batches
    /\ Forall2 (fun task rows => Spec.rowsOfPlan OWNER_ID task (buildSubtasks h task) rows)
         decomposed batches.
Proof.
  destruct (run_store h OWNER_ID w) as (k & _ & ->).
  rewrite addedSubtasks_applyCalls, insertedSubtasks_batches.
  set (roster := rosterOf h OWNER_ID (store w)).
  set (jarvisId := jarvisIdOf h OWNER_ID (store w)).
  destruct (batchCalls_batches h OWNER_ID roster jarvisId (store w)
              (batchOf OWNER_ID (store w))) as (decomposed & Hsub & Heq).
  assert (Hpre : subtaskBatches (take k (runCalls h OWNER_ID (store w)))
                 `prefix_of` planRows h OWNER_ID roster jarvisId <$> decomposed).
  { rewrite <- Heq. change (subtaskBatches (batchCalls _ _ _ _ _ _))
      with (subtaskBatches (runCalls h OWNER_ID (store w))).
    rewrite <- (take_drop k (runCalls h OWNER_ID (store w))) at 2.
    rewrite subtaskBatches_app. by eexists. }
  apply prefix_fmap_take in Hpre.
  exists (take (length (subtaskBatches (take k (runCalls h OWNER_ID (store w))))) decomposed),
    (subtaskBatches (take k (runCalls h OWNER_ID (store w)))).
  split_and!.
  - etrans; [apply sublist_take | done].
  - done.
  - rewrite Hpre at 2. apply Forall2_fmap_r, Forall_Forall2_diag, Forall_forall.
    intros task _. apply planRows_rowsOfPlan.
Qed.

Example scenarioA_rows :
  let rows := addedSubtasks Sample.boardA
                (store (run latin1 Sample.owner (Sample.start Sample.boardA []))) in
  Subtask.sort_order <$> rows = [0; 1; 2]%nat
  /\ Subtask.metadata_triage_bucket <$> rows = [js "Jarvis"; js "Dev"; js "Jarvis"]
  /\ Subtask.assignee_agent_id <$> rows
     = [Some (js "agent-jarvis"); Some (js "agent-dev"); Some (js "agent-jarvis")]
  /\ Forall (fun row => Subtask.status row = in_progress) rows.
Proof. vm_compute. split_and!; try done. repeat constructor. Qed.

(** ** Status transition *)

Section StatusFacts.
Context (h : Host) (OWNER_ID : jsstring).

Lemma updateRow_spec (owner id : jsstring) (expected new : Status) (r : Task.t) :
  Spec.conditionallyUpdated owner id expected new r (updateRow owner id expected new r).
Proof.
  unfold Spec.conditionallyUpdated, updateRow.
  repeat case_bool_decide; simpl; tauto.
Qed.

Lemma targetStatus_decided (task : Task.t) : targetStatus h task = Spec.decidedStatus h task.
Proof. done. Qed.

Lemma itemCalls_tasks roster jarvisId (s : Store.t) (task : Task.t) :
  Task.status task = inbox ->
  Store.tasks (applyCalls s (itemCalls h OWNER_ID roster jarvisId s task))
  = updateRow OWNER_ID (Task.id task) inbox (targetStatus h task) <$> Store.tasks s.
Proof.
  intros Hst. unfold itemCalls. rewrite bool_decide_true by done. simpl.
  by destruct (decomposes h OWNER_ID s task).
Qed.

Lemma Forall_none_take (fs : list (option StoreError)) (n m : nat) :
  (n <= m)%nat -> Forall (fun f => f = None) (take m fs) ->
  Forall (fun f => f = None) (take n fs).
Proof.
  intros Hnm Hm. replace n with (min n m) by lia.
  rewrite <- take_take. by apply Forall_take.
Qed.

(** A turn of the loop that meets no fault completes and leaves the store
    with all its calls applied. *)
Lemma processTask_complete roster jarvisId (task : Task.t) (processed : list Processed.t)
    (w : World) :
  Forall (fun f => f = None) (take 7 (faults w)) ->
  exists w',
    processTask h OWNER_ID roster jarvisId task processed w
    = (Normal (processed ++ itemSummary h OWNER_ID roster jarvisId (store w) task), w')
    /\ store w' = applyCalls (store w) (itemCalls h OWNER_ID roster jarvisId (store w) task).
Proof.
  intros Hnone. rewrite processTask_exec.
  assert (Hok : (exec (itemCalls h OWNER_ID roster jarvisId (store w) task) w).1 = None).
  { apply exec_no_fault. eapply Forall_none_take; [apply itemCalls_length | done]. }
  rewrite Hok. eexists. split; [done|]. by apply exec_complete.
Qed.

End StatusFacts.

(** C5. For an item fetched with status [inbox], whatever the store holds by
    the time of the write: the turn updates the status of exactly the rows
    whose owner and identity match and whose stored status is still [inbox];
    when no row qualifies the write changes nothing and raises no error;
    and in every case the turn completes and its last log entry is the
    [move_status] entry with the from/to values. *)
Theorem processTask_conditional_write (h : Host) (OWNER_ID : jsstring)
    (roster : gmap jsstring Agent.t) (jarvisId : option jsstring)
    (task : Task.t) (processed : list Processed.t) (w : World) :
  Task.status task = inbox ->
  Forall (fun f => f = None) (take 7 (faults w)) ->
  exists p w',
    processTask h OWNER_ID roster jarvisId task processed w = (Normal p, w')
    /\ Forall2 (Spec.conditionallyUpdated OWNER_ID (Task.id task) inbox
                  (Spec.decidedStatus h task))
         (Store.tasks (store w)) (Store.tasks (store w'))
    /\ last (Store.activity_log (store w'))
       = Some {| Activity.owner_id := OWNER_ID; Activity.actor_type := agent;
                 Activity.actor_agent_id := jarvisId; Activity.action := move_status;
                 Activity.entity_type := entity_task; Activity.entity_id := Task.id task;
                 Activity.data := DataMove inbox (Spec.decidedStatus h task) |}.
Proof.
  intros Hst Hnone.
  destruct (processTask_complete h OWNER_ID roster jarvisId task processed w Hnone)
    as (w' & Hrun & Hstore).
  exists (processed ++ itemSummary h OWNER_ID roster jarvisId (store w) task), w'.
  split_and!; [done | |]; rewrite Hstore.
  - rewrite itemCalls_tasks by done.
    apply Forall2_fmap_r, Forall_Forall2_diag, Forall_forall.
    intros r _. apply updateRow_spec.
  - rewrite applyCalls_activity, itemCalls_activity, bool_decide_true by done.
    rewrite !app_assoc. change [?a; ?b] with ([a] ++ [b]).
    rewrite app_assoc. apply last_snoc.
Qed.

(** The stored status has been changed to [review] by somebody else between
    the fetch and the write: no row is updated, no error is raised, the move
    is logged all the same. *)
Lemma processTask_conditional_write_witness :
  exists p w',
    processTask latin1 Sample.owner ∅ None Sample.fixBug []
      (Sample.start {| Store.tasks := [setStatus Sample.fixBug review];
                       Store.subtasks := []; Store.comments := [];
                       Store.activity_log := []; Store.agents := [] |} [])
    = (Normal p, w')
    /\ Forall2 (Spec.conditionallyUpdated Sample.owner (Task.id Sample.fixBug) inbox
                  (Spec.decidedStatus latin1 Sample.fixBug))
         [setStatus Sample.fixBug review] (Store.tasks (store w'))
    /\ last (Store.activity_log (store w'))
       = Some {| Activity.owner_id := Sample.owner; Activity.actor_type := agent;
                 Activity.actor_agent_id := None; Activity.action := move_status;
                 Activity.entity_type := entity_task;
                 Activity.entity_id := Task.id Sample.fixBug;
                 Activity.data := DataMove inbox (Spec.decidedStatus latin1 Sample.fixBug) |}.
Proof.
  apply (processTask_conditional_write latin1 Sample.owner ∅ None Sample.fixBug []).
  - reflexivity.
  - vm_compute. constructor.
Defined.

Example conditional_write_zero_rows :
  let s := {| Store.tasks := [setStatus Sample.fixBug review];
              Store.subtasks := []; Store.comments := [];
              Store.activity_log := []; Store.agents := [] |} in
  let r := processTask latin1 Sample.owner ∅ None Sample.fixBug [] (Sample.start s []) in
  Store.tasks (store r.2) = [setStatus Sample.fixBug review]
  /\ Activity.action <$> Store.activity_log (store r.2)
     = [create_subtasks; add_comment; move_status]
  /\ exitCode r.2 = 0.
Proof. vm_compute. done. Qed.

Section OneShotFacts.
Context (h : Host) (OWNER_ID : jsstring).

Lemma decidedStatus_not_inbox (t : Task.t) : Spec.decidedStatus h t <> inbox.
Proof. unfold Spec.decidedStatus. by destruct (needsNico h t). Qed.

Lemma itemCalls_moves roster jarvisId (batch : list Task.t) (s : Store.t) (task : Task.t) :
  task ∈ batch -> Forall (movesItemOf h OWNER_ID batch) (itemCalls h OWNER_ID roster jarvisId s task).
Proof.
  intros Hin. unfold itemCalls. case_bool_decide; simpl; [|constructor].
  destruct (decomposes h OWNER_ID s task); simpl; repeat constructor; eauto.
Qed.

Lemma batchCalls_moves roster jarvisId (batch : list Task.t) (s : Store.t)
    (tasks : list Task.t) :
  tasks ⊆ batch -> Forall (movesItemOf h OWNER_ID batch) (batchCalls h OWNER_ID roster jarvisId s tasks).
Proof.
  revert s. induction tasks as [|task tasks IH]; intros s Hsub; simpl; [constructor|].
  apply Forall_app. split.
  - apply itemCalls_moves. set_solver.
  - apply IH. set_solver.
Qed.

Lemma runCalls_moves (s : Store.t) :
  Forall (movesItemOf h OWNER_ID (batchOf OWNER_ID s)) (runCalls h OWNER_ID s).
Proof. unfold runCalls. repeat constructor. by apply batchCalls_moves. Qed.

Lemma oneShot_call (batch : list Task.t) (rows : list Task.t) (s : Store.t) (c : Call) :
  movesItemOf h OWNER_ID batch c ->
  Forall2 (Spec.oneShot h batch) rows (Store.tasks s) ->
  Forall2 (Spec.oneShot h batch) rows (Store.tasks (applyCall s c)).
Proof.
  intros Hc Hrows.
  destruct c as [|[new_rows|x|x|owner id expected new]]; simpl; try done.
  destruct Hc as (-> & -> & t & Ht & <- & ->).
  apply Forall2_fmap_r. eapply Forall2_impl; [done|].
  intros r0 r Hr. simpl.
  destruct (updateRow_spec OWNER_ID (Task.id t) inbox (Spec.decidedStatus h t) r)
    as [(Ho & Hid & Hst & ->) | (_ & ->)]; [|done].
  destruct Hr as [-> | (_ & t' & _ & _ & ->)].
  - right. eauto.
  - simpl in Hst. by apply decidedStatus_not_inbox in Hst.
Qed.

Lemma oneShot_calls (batch : list Task.t) (rows : list Task.t) (cs : list Call) (s : Store.t) :
  Forall (movesItemOf h OWNER_ID batch) cs ->
  Forall2 (Spec.oneShot h batch) rows (Store.tasks s) ->
  Forall2 (Spec.oneShot h batch) rows (Store.tasks (applyCalls s cs)).
Proof.
  intros Hcs. revert s. induction Hcs as [|c cs Hc _ IH]; intros s Hrows; [done|].
  rewrite applyCalls_cons. by apply IH, oneShot_call.
Qed.

Lemma itemCalls_settles roster jarvisId (ids : jsstring -> Prop) (s : Store.t)
    (task : Task.t) :
  Task.status task = inbox ->
  Forall (fun r => ~ pending OWNER_ID ids r) (Store.tasks s) ->
  Forall (fun r => ~ pending OWNER_ID (fun id => ids id \/ id = Task.id task) r)
    (Store.tasks (applyCalls s (itemCalls h OWNER_ID roster jarvisId s task))).
Proof.
  intros Hst Hs. rewrite itemCalls_tasks by done. apply Forall_fmap.
  eapply Forall_impl; [done|]. intros r Hr. simpl.
  destruct (updateRow_spec OWNER_ID (Task.id task) inbox (targetStatus h task) r)
    as [(_ & _ & _ & ->) | (Hno & ->)]; unfold pending in *; simpl.
  - intros (_ & Hin & _). by apply decidedStatus_not_inbox in Hin.
  - tauto.
Qed.

Lemma batchCalls_settles roster jarvisId (tasks : list Task.t) :
  forall (ids : jsstring -> Prop) (s : Store.t),
  Forall (fun t => Task.status t = inbox) tasks ->
  Forall (fun r => ~ pending OWNER_ID ids r) (Store.tasks s) ->
  Forall (fun r => ~ pending OWNER_ID (fun id => ids id \/ id ∈ Task.id <$> tasks) r)
    (Store.tasks (applyCalls s (batchCalls h OWNER_ID roster jarvisId s tasks))).
Proof.
  induction tasks as [|task tasks IH]; intros ids s Hin Hs; simpl.
  - eapply Forall_impl; [done|]. unfold pending. intros r Hr (? & ? & [?|Hin']); [tauto|].
    by apply elem_of_nil in Hin'.
  - inversion Hin as [|? ? Hst Hrest]; subst. rewrite applyCalls_app.
    eapply Forall_impl; [apply IH; [done|]; by apply itemCalls_settles|].
    unfold pending. intros r Hr (? & ? & Hids). apply Hr. split_and!; try done.
    rewrite elem_of_cons in Hids. tauto.
Qed.

End OneShotFacts.

(** C6. Every status change of a pass is the single step from [inbox] to the
    status decided for the processed item with that identity:
    [needs_nico] (the specification's needs_clarification) when the item is
    vague, [triage] otherwise; a row that has left [inbox] is not touched
    again. When no call fails, no item of the batch is left in [inbox]. *)
Theorem run_one_shot (h : Host) (OWNER_ID : jsstring) (w : World) :
  Forall2 (Spec.oneShot h (batchOf OWNER_ID (store w)))
    (Store.tasks (store w)) (Store.tasks (store (run h OWNER_ID w)))
  /\ (Forall (fun f => f = None) (faults w) ->
      Forall (fun r => ~ (Task.owner_id r = OWNER_ID /\ Task.status r = inbox
                          /\ Task.id r ∈ Task.id <$> batchOf OWNER_ID (store w)))
        (Store.tasks (store (run h OWNER_ID w)))).
Proof.
  split.
  - destruct (run_store h OWNER_ID w) as (k & _ & ->).
    apply (oneShot_calls h OWNER_ID).
    + apply Forall_take, runCalls_moves.
    + apply Forall_Forall2_diag, Forall_forall. intros r _. by left.
  - intros Hnone. rewrite run_complete by done. unfold printed, runCalls. simpl.
    change (foldl applyCall (store w) ?cs) with (applyCalls (store w) cs).
    eapply Forall_impl.
    + apply (batchCalls_settles h OWNER_ID _ _ _ (fun _ => False));
        [apply batchOf_inbox|].
      apply Forall_forall. intros r _. unfold pending. tauto.
    + unfold pending. simpl. intros r Hr (? & ? & ?). apply Hr. tauto.
Qed.

Lemma run_one_shot_witness :
  Forall (fun r => ~ (Task.owner_id r = Sample.owner /\ Task.status r = inbox
                      /\ Task.id r ∈ Task.id <$> batchOf Sample.owner Sample.board))
    (Store.tasks (store (run latin1 Sample.owner (Sample.start Sample.board [])))).
Proof.
  apply (proj2 (run_one_shot latin1 Sample.owner (Sample.start Sample.board []))).
  vm_compute. constructor.
Defined.

Example run_statuses :
  Task.status <$> Store.tasks (store (run latin1 Sample.owner (Sample.start Sample.board [])))
  = [triage; needs_nico; review].
Proof. vm_compute. reflexivity. Qed.

(** ** Decomposition happens at most once *)

Section IdempotenceFacts.
Context (h : Host) (OWNER_ID : jsstring).

Lemma filter_none {A} (P : A -> Prop) `{!forall x, Decision (P x)} (l : list A) :
  Forall (fun x => ~ P x) l -> filter P l = [].
Proof.
  induction 1 as [|x l Hx _ IH]; [done|]. by rewrite filter_cons_False.
Qed.

Lemma subtasksFor_applyCalls (id : jsstring) (s : Store.t) (cs : list Call) :
  subtasksFor OWNER_ID id (applyCalls s cs)
  = subtasksFor OWNER_ID id s
    ++ filter (fun r => Subtask.owner_id r = OWNER_ID /\ Subtask.task_id r = id)
         (insertedSubtasks cs).
Proof. unfold subtasksFor. by rewrite applyCalls_subtasks, filter_app. Qed.

Lemma alreadyHas_subtasksFor (s : Store.t) (task : Task.t) :
  alreadyHas OWNER_ID s task = true <-> subtasksFor OWNER_ID (Task.id task) s <> [].
Proof.
  unfold alreadyHas. rewrite selectSubtasks_subtasksFor, Nat.ltb_lt.
  destruct (subtasksFor OWNER_ID (Task.id task) s); simpl; split; (done || lia).
Qed.

Lemma Forall_imap_all {A B} (P : B -> Prop) (l : list A) :
  forall f : nat -> A -> B, (forall i x, P (f i x)) -> Forall P (imap f l).
Proof.
  induction l as [|x l IH]; intros f Hf; simpl; constructor; [done|].
  apply IH. intros i y. apply Hf.
Qed.

Lemma subtaskRows_task_id roster jarvisId (task : Task.t) (plan : list Step.t) :
  Forall (fun r => Subtask.task_id r = Task.id task)
    (subtaskRows h OWNER_ID roster jarvisId task plan).
Proof. by apply Forall_imap_all. Qed.

(** A turn for an item inserts no row for another item, and none for its own
    item when that one has subtasks already. *)
Lemma itemCalls_no_second_batch roster jarvisId (id : jsstring) (s : Store.t)
    (task : Task.t) :
  subtasksFor OWNER_ID id s <> [] ->
  filter (fun r => Subtask.owner_id r = OWNER_ID /\ Subtask.task_id r = id)
    (insertedSubtasks (itemCalls h OWNER_ID roster jarvisId s task)) = [].
Proof.
  intros Hhas. rewrite itemCalls_subtasks.
  destruct (bool_decide _ && decomposes h OWNER_ID s task) eqn:Hdec; [|done].
  apply andb_true_iff in Hdec as [_ Hdec]. unfold decomposes in Hdec.
  apply andb_true_iff in Hdec as [Hnot _]. apply negb_true_iff in Hnot.
  assert (Hne : Task.id task <> id).
  { intros <-. apply alreadyHas_subtasksFor in Hhas. congruence. }
  apply filter_none. eapply Forall_impl; [apply subtaskRows_task_id|].
  simpl. intros r Hr [_ Hid]. congruence.
Qed.

Lemma batchCalls_no_second_batch roster jarvisId (id : jsstring) (tasks : list Task.t) :
  forall s : Store.t,
  subtasksFor OWNER_ID id s <> [] ->
  Forall (fun rows =>
            filter (fun r => Subtask.owner_id r = OWNER_ID /\ Subtask.task_id r = id) rows = [])
    (subtaskBatches (batchCalls h OWNER_ID roster jarvisId s tasks)).
Proof.
  induction tasks as [|task tasks IH]; intros s Hhas; simpl; [constructor|].
  rewrite subtaskBatches_app. apply Forall_app. split.
  - pose proof (itemCalls_no_second_batch roster jarvisId id s task Hhas) as Hnone.
    rewrite itemCalls_subtasks in Hnone. rewrite itemCalls_batches.
    destruct (_ && _); by repeat constructor.
  - apply IH. rewrite subtasksFor_applyCalls.
    intros Heq. by apply app_eq_nil in Heq as [? _].
Qed.

Lemma filter_concat_nil {A} (P : A -> Prop) `{!forall x, Decision (P x)}
    (ls : list (list A)) :
  Forall (fun l => filter P l = []) ls -> filter P (concat ls) = [].
Proof.
  induction 1 as [|l ls Hl _ IH]; [done|]. simpl. by rewrite filter_app, Hl, IH.
Qed.

(** An item that has a subtask keeps exactly the subtasks it has, whatever
    the run does and wherever it stops. *)
Lemma run_keeps_subtasks (w : World) (id : jsstring) :
  subtasksFor OWNER_ID id (store w) <> [] ->
  subtasksFor OWNER_ID id (store (run h OWNER_ID w)) = subtasksFor OWNER_ID id (store w).
Proof.
  intros Hhas. destruct (run_store h OWNER_ID w) as (k & _ & ->).
  rewrite subtasksFor_applyCalls, insertedSubtasks_batches, filter_concat_nil.
  - by rewrite app_nil_r.
  - pose proof (batchCalls_no_second_batch (rosterOf h OWNER_ID (store w))
                  (jarvisIdOf h OWNER_ID (store w)) id (batchOf OWNER_ID (store w))
                  (store w) Hhas) as Hall.
    change (subtaskBatches (batchCalls _ _ _ _ _ _))
      with (subtaskBatches (runCalls h OWNER_ID (store w))) in Hall.
    rewrite <- (take_drop k (runCalls h OWNER_ID (store w))), subtaskBatches_app in Hall.
    by apply Forall_app in Hall as [? _].
Qed.

(** The log entries of a batch: one [add_comment] and one [move_status]
    entry per item, in the order of the batch. *)
Lemma batchCalls_logged roster jarvisId (action : Action) (tasks : list Task.t) :
  action = add_comment \/ action = move_status ->
  forall s : Store.t,
  Forall (fun t => Task.status t = inbox) tasks ->
  loggedFor action (insertedActivity (batchCalls h OWNER_ID roster jarvisId s tasks))
  = Task.id <$> tasks.
Proof.
  intros Haction. induction tasks as [|task tasks IH]; intros s Hin; [done|].
  inversion Hin as [|? ? Hst Hrest]; subst. simpl.
  rewrite insertedActivity_app. unfold loggedFor in *.
  rewrite filter_app, fmap_app, IH by done.
  rewrite itemCalls_activity, bool_decide_true by done.
  destruct Haction as [-> | ->], (decomposes h OWNER_ID s task); reflexivity.
Qed.

End IdempotenceFacts.

(** C4 (as amended). The presence of a subtask for an item suppresses its
    decomposition: an item that has a subtask keeps exactly the subtasks it
    has through any run, so a second run after one that created subtasks
    for the item creates no second batch. The summary comment and the
    [add_comment] and [move_status] log entries are appended for every item
    a run fetches, whether or not the item had subtasks. *)
Theorem run_no_second_batch (h : Host) (OWNER_ID : jsstring) (w : World) (id : jsstring) :
  (subtasksFor OWNER_ID id (store w) <> [] ->
   subtasksFor OWNER_ID id (store (run h OWNER_ID w)) = subtasksFor OWNER_ID id (store w))
  /\ (subtasksFor OWNER_ID id (store (run h OWNER_ID w)) <> [] ->
      subtasksFor OWNER_ID id (store (run h OWNER_ID (run h OWNER_ID w)))
      = subtasksFor OWNER_ID id (store (run h OWNER_ID w)))
  /\ (Forall (fun f => f = None) (faults w) ->
      Comment.task_id <$> addedComments (store w) (store (run h OWNER_ID w))
      = Task.id <$> batchOf OWNER_ID (store w)
      /\ loggedFor add_comment (addedActivity (store w) (store (run h OWNER_ID w)))
         = Task.id <$> batchOf OWNER_ID (store w)
      /\ loggedFor move_status (addedActivity (store w) (store (run h OWNER_ID w)))
         = Task.id <$> batchOf OWNER_ID (store w)).
Proof.
  split_and!.
  - apply run_keeps_subtasks.
  - apply run_keeps_subtasks.
  - intros Hnone. rewrite run_complete by done. unfold printed. simpl.
    change (foldl applyCall (store w) ?cs) with (applyCalls (store w) cs).
    rewrite addedComments_applyCalls, addedActivity_applyCalls.
    rewrite batchCalls_comments by apply batchOf_inbox.
    rewrite !batchCalls_logged by (auto using batchOf_inbox).
    by rewrite <- list_fmap_compose.
Qed.

Lemma run_no_second_batch_witness :
  subtasksFor Sample.owner (js "t1") (store (run latin1 Sample.owner Sample.afterInterrupted))
  = subtasksFor Sample.owner (js "t1") (store Sample.afterInterrupted)
  /\ subtasksFor Sample.owner (js "t1")
       (store (run latin1 Sample.owner (run latin1 Sample.owner Sample.interrupted)))
     = subtasksFor Sample.owner (js "t1") (store (run latin1 Sample.owner Sample.interrupted))
  /\ (Comment.task_id <$> addedComments (store Sample.afterInterrupted)
        (store (run latin1 Sample.owner Sample.afterInterrupted))
      = Task.id <$> batchOf Sample.owner (store Sample.afterInterrupted)
      /\ loggedFor add_comment (addedActivity (store Sample.afterInterrupted)
           (store (run latin1 Sample.owner Sample.afterInterrupted)))
         = Task.id <$> batchOf Sample.owner (store Sample.afterInterrupted)
      /\ loggedFor move_status (addedActivity (store Sample.afterInterrupted)
           (store (run latin1 Sample.owner Sample.afterInterrupted)))
         = Task.id <$> batchOf Sample.owner (store Sample.afterInterrupted)).
Proof.
  split; [|split].
  - apply (proj1 (run_no_second_batch latin1 Sample.owner Sample.afterInterrupted (js "t1"))).
    vm_compute. discriminate.
  - apply (proj1 (proj2 (run_no_second_batch latin1 Sample.owner Sample.interrupted
                           (js "t1")))).
    vm_compute. discriminate.
  - apply (proj2 (proj2 (run_no_second_batch latin1 Sample.owner Sample.afterInterrupted
                           (js "t1")))).
    vm_compute. constructor.
Defined.

(** The interrupted scenario, evaluated: the second run finds the item in
    the inbox with its three subtasks, adds none, and appends the comment
    and the two log entries. *)
Example interrupted_then_rerun :
  length (Store.subtasks (store Sample.afterInterrupted)) = 3%nat
  /\ Task.status <$> Store.tasks (store Sample.afterInterrupted) = [inbox]
  /\ length (Store.subtasks (store (run latin1 Sample.owner Sample.afterInterrupted))) = 3%nat
  /\ Task.status <$> Store.tasks (store (run latin1 Sample.owner Sample.afterInterrupted))
     = [triage]
  /\ Activity.action <$> addedActivity (store Sample.afterInterrupted)
       (store (run latin1 Sample.owner Sample.afterInterrupted))
     = [add_comment; move_status]
  /\ stdout (run latin1 Sample.owner (Sample.start (store Sample.afterInterrupted) []))
     = [js "Procesado: 1 tasks"; js "- t1: +0 subtasks, status=triage (subtasks ya existían)"].
Proof. vm_compute. done. Qed.

(** C4 as stated fails on its last clause: after a first run that created
    the subtasks of the item of scenario A and moved it to [triage], a
    second run with no change in between does not fetch the item; it leaves
    the three subtasks alone, but it appends no comment and no log entry. *)
Lemma second_run_appends_nothing :
  length (subtasksFor Sample.owner (js "t1") (store Sample.afterFirstRun)) = 3%nat
  /\ length (Store.comments (store Sample.afterFirstRun)) = 1%nat
  /\ length (Store.activity_log (store Sample.afterFirstRun)) = 3%nat
  /\ batchOf Sample.owner (store Sample.afterFirstRun) = []
  /\ length (subtasksFor Sample.owner (js "t1") (store Sample.afterSecondRun)) = 3%nat
  /\ addedComments (store Sample.afterFirstRun) (store Sample.afterSecondRun) = []
  /\ addedActivity (store Sample.afterFirstRun) (store Sample.afterSecondRun) = []
  /\ stdout Sample.afterSecondRun = [js "Procesado: 0 tasks (no había tasks en inbox)."].
Proof. vm_compute. done. Qed.
